(** * Foster B-tree: the encoding layer (encoding.h)

    A shallow embedding of the encoder policies of the Foster B-tree
    (namespace [foster], file encoding.h) and the proofs of the properties
    the specification states about them: poor man's normalized keys (PMNK),
    the assignment, inline-string, tuple and dummy encoders, and the
    compound key-value encoder.

    Modelling conventions.
    - The build only targets 64-bit x86 (CMakeLists.txt: [-m64],
      [-mtune=nocona]); the host is little-endian.  The object
      representation of a scalar of [n] bytes is the list of its [n] bytes,
      least significant first.
    - A scalar value is the number [N] read from its object representation;
      a value of an [n]-byte type is below [256^n].
    - [std::string] is a list of bytes; its order is the lexicographic order
      of unsigned bytes.
    - Memory is a flat byte-addressed store; a pointer is an address.
      [size_t] and pointer arithmetic are unbounded (no object here comes
      close to 2^64 bytes); the 16-bit length field wraps, as in the code. *)

From Stdlib Require Import String.
From Stdlib Require Import NArith ZArith Arith List Bool Lia.
From Stdlib Require Import Strings.Byte.
Import ListNotations.

Local Open Scope N_scope.

(** ** Bytes and object representations *)

(** Narrowing conversion to [unsigned char]. *)
Definition byte_of_N (n : N) : byte :=
  match Byte.of_N (n mod 256) with
  | Some b => b
  | None => "000"%byte
  end.

(** Object representation of an [n]-byte scalar on the little-endian host. *)
Fixpoint object_repr (n : nat) (x : N) : list byte :=
  match n with
  | O => []
  | S n' => byte_of_N x :: object_repr n' (x / 256)
  end.

(** The scalar read back from an object representation. *)
Fixpoint object_value (bs : list byte) : N :=
  match bs with
  | [] => 0
  | b :: bs' => Byte.to_N b + 256 * object_value bs'
  end.

(** ** swap_endianness *)

(** [for (k = 0; k < sizeof(T); k++) dest.u8[k] = source.u8[sizeof(T) - k - 1];] *)
Definition swap_bytes (sizeof_T : nat) (source : list byte) : list byte :=
  map (fun k => nth (sizeof_T - k - 1) source "000"%byte) (seq 0 sizeof_T).

Definition swap_endianness (sizeof_T : nat) (u : N) : N :=
  let source := object_repr sizeof_T u in
  let dest := swap_bytes sizeof_T source in
  object_value dest.

(** ** Types and values *)

(** Induction over [ty] and [value] goes through the lists of fields. *)
Scheme All for list.

Inductive scalar_kind := Unsigned | Signed.

(** The C++ types the encoders are instantiated at: scalars (with their
    [sizeof]), [std::string] and [std::tuple<T...>]. *)
Inductive ty :=
| TScalar (k : scalar_kind) (size : nat)
| TString
| TTuple (fields : list ty).

Inductive value :=
| VScalar (x : N)
| VString (s : list byte)
| VTuple (fields : list value).

Definition scalar_kind_eqb (a b : scalar_kind) : bool :=
  match a, b with
  | Unsigned, Unsigned | Signed, Signed => true
  | _, _ => false
  end.

Section Forall2b.
Context {A B : Type} (f : A -> B -> bool).
(** [f] holds of the two lists element by element, and they are equally long. *)
Fixpoint forall2b (l : list A) (l' : list B) : bool :=
  match l, l' with
  | [], [] => true
  | x :: l, y :: l' => f x y && forall2b l l'
  | _, _ => false
  end.
End Forall2b.

(** [std::is_same<A, B>::value] *)
Fixpoint is_same (a b : ty) : bool :=
  match a, b with
  | TScalar k n, TScalar k' n' => scalar_kind_eqb k k' && Nat.eqb n n'
  | TString, TString => true
  | TTuple fs, TTuple gs => forall2b is_same fs gs
  | _, _ => false
  end.

(** [v] is a value of the C++ type [T]. *)
Fixpoint has_type (T : ty) (v : value) : bool :=
  match T, v with
  | TScalar _ n, VScalar x => x <? 256 ^ N.of_nat n
  | TString, VString _ => true
  | TTuple Ts, VTuple fs => forall2b has_type Ts fs
  | _, _ => false
  end.

(** Every byte string inside [v] is shorter than 2^16, the range of the
    length prefix [uint16_t]. *)
Fixpoint short_strings (v : value) : bool :=
  match v with
  | VScalar _ => true
  | VString s => N.of_nat (length s) <? 65536
  | VTuple fs => forallb short_strings fs
  end.

(** Value-initialisation [T{}]. *)
Fixpoint value_init (T : ty) : value :=
  match T with
  | TScalar _ _ => VScalar 0
  | TString => VString []
  | TTuple Ts => VTuple (map value_init Ts)
  end.

Definition scalar_of (v : value) : N :=
  match v with VScalar x => x | _ => 0 end.

Definition string_of (v : value) : list byte :=
  match v with VString s => s | _ => [] end.

(** [std::get<N>(t)] *)
Definition tuple_get (n : nat) (t : value) : value :=
  match t with
  | VTuple fs => nth n fs (VTuple [])
  | _ => VTuple []
  end.

Fixpoint replace_nth (n : nat) (fs : list value) (f : value) : list value :=
  match fs, n with
  | [], _ => []
  | _ :: fs', O => f :: fs'
  | g :: fs', S n' => g :: replace_nth n' fs' f
  end.

(** Assignment to field [N] of the tuple [t] points to. *)
Definition tuple_set (n : nat) (t : value) (f : value) : value :=
  match t with
  | VTuple fs => VTuple (replace_nth n fs f)
  | _ => t
  end.

(** ** Memory *)

Definition memory := N -> byte.

Definition store (m : memory) (a : N) (b : byte) : memory :=
  fun a' => if a' =? a then b else m a'.

(** [memcpy(a, bs, length bs)] *)
Fixpoint store_bytes (m : memory) (a : N) (bs : list byte) : memory :=
  match bs with
  | [] => m
  | b :: bs' => store_bytes (store m a b) (a + 1) bs'
  end.

Fixpoint load_bytes (m : memory) (a : N) (n : nat) : list byte :=
  match n with
  | O => []
  | S n' => m a :: load_bytes m (a + 1) n'
  end.

(** [*reinterpret_cast<T*>(a)] for a scalar [T] of [n] bytes. *)
Definition load_scalar (m : memory) (a : N) (n : nat) : N :=
  object_value (load_bytes m a n).

Definition store_scalar (m : memory) (a : N) (n : nat) (x : N) : memory :=
  store_bytes m a (object_repr n x).

Definition zero_memory : memory := fun _ => "000"%byte.

(** ** The encoder policy *)

(** What a [decode] call leaves behind: the pointer it returns, the content
    of the caller's output object ([None] for a null output pointer), and
    the objects it obtained from [new] and never released. *)
Record decoded := {
  end_ptr : N;
  output : option value;
  allocated : list value
}.

(** The four static members every encoder class offers. *)
Module Encoder.
Record t := {
  Type_ : ty;
  get_payload_length : value -> N;
  get_payload_length_ptr : memory -> N -> N;
  encode : value -> N -> memory -> memory * N;
  decode : memory -> N -> option value -> decoded
}.
End Encoder.

Module DummyEncoder.
Definition get_payload_length (_ : value) : N := 0.
Definition get_payload_length_ptr (_ : memory) (_ : N) : N := 0.
Definition encode (_ : value) (p : N) (m : memory) : memory * N := (m, p).
Definition decode (_ : memory) (p : N) (out : option value) : decoded :=
  {| end_ptr := p; output := out; allocated := [] |}.
Definition policy (T : ty) : Encoder.t :=
  {| Encoder.Type_ := T;
     Encoder.get_payload_length := get_payload_length;
     Encoder.get_payload_length_ptr := get_payload_length_ptr;
     Encoder.encode := encode;
     Encoder.decode := decode |}.
End DummyEncoder.

Module AssignmentEncoder.
Section T.
Variable sizeof_T : nat.
Definition get_payload_length (_ : value) : N := N.of_nat sizeof_T.
Definition get_payload_length_ptr (_ : memory) (_ : N) : N := N.of_nat sizeof_T.
Definition encode (value : value) (dest : N) (m : memory) : memory * N :=
  (store_scalar m dest sizeof_T (scalar_of value), dest + N.of_nat sizeof_T).
Definition decode (m : memory) (src : N) (value_p : option value) : decoded :=
  let value_src := load_scalar m src sizeof_T in
  {| end_ptr := src + N.of_nat sizeof_T;
     output := match value_p with
               | Some _ => Some (VScalar value_src)
               | None => None
               end;
     allocated := [] |}.
End T.
Definition policy (k : scalar_kind) (sizeof_T : nat) : Encoder.t :=
  {| Encoder.Type_ := TScalar k sizeof_T;
     Encoder.get_payload_length := get_payload_length sizeof_T;
     Encoder.get_payload_length_ptr := get_payload_length_ptr sizeof_T;
     Encoder.encode := encode sizeof_T;
     Encoder.decode := decode sizeof_T |}.
End AssignmentEncoder.

(** [InlineEncoder<string>], with [LengthType = uint16_t]. *)
Module InlineString.
Definition sizeof_LengthType : nat := 2.
(** Conversion of a [size_t] to [LengthType]. *)
Definition to_LengthType (n : N) : N := n mod 2 ^ 16.
Definition get_payload_length (value : value) : N :=
  N.of_nat sizeof_LengthType + N.of_nat (length (string_of value)).
Definition get_payload_length_ptr (m : memory) (ptr : N) : N :=
  load_scalar m ptr sizeof_LengthType + N.of_nat sizeof_LengthType.
Definition encode (value : value) (dest : N) (m : memory) : memory * N :=
  let s := string_of value in
  let m := store_scalar m dest sizeof_LengthType
             (to_LengthType (N.of_nat (length s))) in
  let dest := dest + N.of_nat sizeof_LengthType in
  let m := store_bytes m dest s in
  let dest := dest + N.of_nat (length s) in
  (m, dest).
Definition decode (m : memory) (src : N) (value_p : option value) : decoded :=
  let length := load_scalar m src sizeof_LengthType in
  {| end_ptr := src + N.of_nat sizeof_LengthType + length;
     output := match value_p with
               | Some _ =>
                   Some (VString (load_bytes m (src + N.of_nat sizeof_LengthType)
                                    (N.to_nat length)))
               | None => None
               end;
     allocated := [] |}.
End InlineString.

(** [TupleEncodingHelper<FieldEncoder, N>]: member [N] of the family handles
    field [N] and hands over to [NextEncoder], the member [N+1]; the
    recursion stops when [N] reaches [sizeof...(T)].  [rest] holds the
    field types from index [N] on. *)
Module TupleEncodingHelper.
Section FieldEncoder.
Variable FieldEnc_get_payload_length : ty -> value -> N.
Variable FieldEnc_get_payload_length_ptr : ty -> memory -> N -> N.
Variable FieldEnc_encode : ty -> value -> N -> memory -> memory * N.
Variable FieldEnc_decode : ty -> memory -> N -> option value -> decoded.

Fixpoint get_payload_length (rest : list ty) (n : nat) (t : value) : N :=
  match rest with
  | [] => 0
  | T_N :: rest' =>
      get_payload_length rest' (S n) t
      + FieldEnc_get_payload_length T_N (tuple_get n t)
  end.

Fixpoint get_payload_length_ptr (rest : list ty) (n : nat)
    (m : memory) (ptr : N) : N :=
  match rest with
  | [] => 0
  | T_N :: rest' =>
      let flen := FieldEnc_get_payload_length_ptr T_N m ptr in
      let charptr := ptr + flen in
      get_payload_length_ptr rest' (S n) m charptr
  end.

Fixpoint encode (rest : list ty) (n : nat) (t : value)
    (dest : N) (m : memory) : memory * N :=
  match rest with
  | [] => (m, dest)
  | T_N :: rest' =>
      let '(m', next) := FieldEnc_encode T_N (tuple_get n t) dest m in
      encode rest' (S n) t next m'
  end.

(** [Ts] is the whole pack [T...], needed by [new std::tuple<T...>{}]. *)
Fixpoint decode (Ts rest : list ty) (n : nat) (m : memory)
    (src : N) (t : option value) : decoded :=
  match rest with
  | [] => {| end_ptr := src; output := t; allocated := [] |}
  | T_N :: rest' =>
      let '(obj, fresh) :=
        match t with
        | Some obj => (obj, false)
        | None => (value_init (TTuple Ts), true)
        end in
      let field := FieldEnc_decode T_N m src (Some (tuple_get n obj)) in
      let obj := match output field with
                 | Some f => tuple_set n obj f
                 | None => obj
                 end in
      let tail := decode Ts rest' (S n) m (end_ptr field) (Some obj) in
      let obj := match output tail with Some o => o | None => obj end in
      if fresh
      then {| end_ptr := end_ptr tail; output := None;
              allocated := allocated field ++ allocated tail ++ [obj] |}
      else {| end_ptr := end_ptr tail; output := Some obj;
              allocated := allocated field ++ allocated tail |}
  end.
End FieldEncoder.
End TupleEncodingHelper.

(** [InlineEncoder<T>]: the assignment encoder for scalars, the
    length-prefixed encoder for [string], the helper for tuples. *)
Module InlineEncoder.
Fixpoint get_payload_length (T : ty) (value : value) : N :=
  match T with
  | TScalar _ n => AssignmentEncoder.get_payload_length n value
  | TString => InlineString.get_payload_length value
  | TTuple Ts =>
      TupleEncodingHelper.get_payload_length get_payload_length Ts 0 value
  end.

(** In the tuple case the call [Helper::get_payload_length(ptr)] cannot
    deduce the pack [T...] from a [void*]; whichever pack is taken the
    helper returns the same number (lemma [tuple_length_from_bytes]). *)
Fixpoint get_payload_length_ptr (T : ty) (m : memory) (ptr : N) : N :=
  match T with
  | TScalar _ n => AssignmentEncoder.get_payload_length_ptr n m ptr
  | TString => InlineString.get_payload_length_ptr m ptr
  | TTuple Ts =>
      TupleEncodingHelper.get_payload_length_ptr get_payload_length_ptr
        Ts 0 m ptr
  end.

Fixpoint encode (T : ty) (value : value) (dest : N) (m : memory)
    : memory * N :=
  match T with
  | TScalar _ n => AssignmentEncoder.encode n value dest m
  | TString => InlineString.encode value dest m
  | TTuple Ts => TupleEncodingHelper.encode encode Ts 0 value dest m
  end.

Fixpoint decode (T : ty) (m : memory) (src : N) (value_p : option value)
    : decoded :=
  match T with
  | TScalar _ n => AssignmentEncoder.decode n m src value_p
  | TString => InlineString.decode m src value_p
  | TTuple Ts => TupleEncodingHelper.decode decode Ts Ts 0 m src value_p
  end.

Definition policy (T : ty) : Encoder.t :=
  {| Encoder.Type_ := T;
     Encoder.get_payload_length := get_payload_length T;
     Encoder.get_payload_length_ptr := get_payload_length_ptr T;
     Encoder.encode := encode T;
     Encoder.decode := decode T |}.
End InlineEncoder.

(** ** PMNK extraction *)

(** [NoPrefixing<K>] *)
Definition NoPrefixing (key : value) : value := key.

Section Prefixing.

(** The bytes found in automatic storage before it is written. *)
Variable indeterminate : nat -> byte.

Definition uninitialized (n : nat) : list byte := map indeterminate (seq 0 n).

(** Writing, respectively reading, the member of a union that occupies its
    first bytes. *)
Definition union_write (storage bs : list byte) : list byte :=
  bs ++ skipn (length bs) storage.

Definition union_read (storage : list byte) (n : nat) : list byte :=
  firstn n storage.

(** [PoormanPrefixing<K, PMNK_Type>::operator()], on
    [union { K swapped; PMNK_Type prefix; }]. *)
Definition PoormanPrefixing (sizeof_K sizeof_PMNK : nat) (key : N) : N :=
  let u := uninitialized (Nat.max sizeof_K sizeof_PMNK) in
  let u :=
    if (sizeof_PMNK <=? sizeof_K)%nat then
      let u := union_write u
                 (object_repr sizeof_K (swap_endianness sizeof_K key)) in
      let prefix := object_value (union_read u sizeof_PMNK) in
      union_write u
        (object_repr sizeof_PMNK (swap_endianness sizeof_PMNK prefix))
    else
      union_write u (object_repr sizeof_K key) in
  object_value (union_read u sizeof_PMNK).

(** [PoormanPrefixing<string, PMNK_Type>::operator()], on
    [union { unsigned char bytes[sizeof(PMNK_Type)]; PMNK_Type prefix; }]. *)
Definition PoormanPrefixing_string (sizeof_PMNK : nat) (key : list byte) : N :=
  let u := uninitialized sizeof_PMNK in
  let amount := sizeof_PMNK in
  let '(u, amount) :=
    if (length key <? amount)%nat
    then (union_write u (object_repr sizeof_PMNK 0), length key)
    else (u, amount) in
  let u := union_write u (firstn amount key) in
  let prefix := object_value (union_read u sizeof_PMNK) in
  let u := union_write u
             (object_repr sizeof_PMNK (swap_endianness sizeof_PMNK prefix)) in
  object_value (union_read u sizeof_PMNK).

(** [PMNKEncoder<K, PMNK_Type>::get_pmnk].  [PrefixingFunction] is
    [NoPrefixing<K>] when the two types are the same and
    [PoormanPrefixing<K, PMNK_Type>] otherwise; [None] stands for an
    instantiation the static assertions of [PoormanPrefixing] reject. *)
Definition get_pmnk (K PMNK_Type : ty) (key : value) : option value :=
  if is_same PMNK_Type K then Some (NoPrefixing key)
  else
    match K, PMNK_Type with
    | TScalar _ sizeof_K, TScalar _ sizeof_PMNK =>
        if (sizeof_PMNK <=? sizeof_K)%nat
        then Some (VScalar (PoormanPrefixing sizeof_K sizeof_PMNK (scalar_of key)))
        else None
    | TString, TScalar _ sizeof_PMNK =>
        Some (VScalar (PoormanPrefixing_string sizeof_PMNK (string_of key)))
    | _, _ => None
    end.

End Prefixing.

(** ** CompoundEncoder *)

Inductive outcome (A : Type) :=
| Returned (a : A)
| AssertionFailed (msg : string)
| NullDereference.
Arguments Returned {A} a.
Arguments AssertionFailed {A} msg.
Arguments NullDereference {A}.

Record pair_decoded := {
  key_out : option value;
  value_out : option value;
  pair_allocated : list value
}.

Module CompoundEncoder.
Section Policies.

(** Modelled from the spec: assertions.h, which declares [assert<L>], is not
    among the sources.  [assert<L>(cond, msg)] stops the program with [msg]
    when [cond] is false and level [L] is compiled in (violations abort in
    debug builds; the build sets [DEBUG_LEVEL]).  Which levels are compiled
    in is left open. *)
Variable assert_enabled : nat -> bool.

Variables KeyEncoder ValueEncoder : Encoder.t.
Variable PMNK_Type : ty.

Definition K : ty := Encoder.Type_ KeyEncoder.

Definition ActualKeyEncoder : Encoder.t :=
  if is_same K PMNK_Type then DummyEncoder.policy K else KeyEncoder.

Definition get_payload_length (key value : value) : N :=
  Encoder.get_payload_length ActualKeyEncoder key
  + Encoder.get_payload_length ValueEncoder value.

Definition get_payload_length_ptr (m : memory) (addr : N) : N :=
  let ksize := Encoder.get_payload_length_ptr ActualKeyEncoder m addr in
  let p := addr + ksize in
  let vsize := Encoder.get_payload_length_ptr ValueEncoder m p in
  ksize + vsize.

Definition encode (key value : value) (dest : N) (m : memory) : memory :=
  let p := dest in
  let '(m, p) := Encoder.encode ActualKeyEncoder key p m in
  fst (Encoder.encode ValueEncoder value p m).

Definition decode (m : memory) (src : N) (key value pmnk : option value)
    : outcome pair_decoded :=
  let p := src in
  let kd := Encoder.decode ActualKeyEncoder m p key in
  let p := end_ptr kd in
  let vd := Encoder.decode ValueEncoder m p value in
  let allocs := allocated kd ++ allocated vd in
  if (match key with Some _ => true | None => false end)
     && is_same K PMNK_Type
  then
    match pmnk with
    | Some pmnk_value =>
        Returned {| key_out := Some pmnk_value; value_out := output vd;
                    pair_allocated := allocs |}
    | None =>
        if assert_enabled 1
        then AssertionFailed "PMNK required to decode this key"
        else NullDereference
    end
  else
    Returned {| key_out := output kd; value_out := output vd;
                pair_allocated := allocs |}.

End Policies.
End CompoundEncoder.

(** ** DefaultEncoder *)

(** The key and value types [DefaultEncoder] is specialised for: a scalar,
    encoded by assignment, and [string], encoded inline.  (For any other
    class type the primary template would run [AssignmentEncoder] on the
    object itself, which has no byte-level model here.) *)
Inductive plain_ty :=
| PScalar (k : scalar_kind) (size : nat)
| PString.

Definition ty_of (T : plain_ty) : ty :=
  match T with
  | PScalar k n => TScalar k n
  | PString => TString
  end.

(** [DefaultEncoder<K, V, PMNK_Type>] is
    [CompoundEncoder<FieldEncoder<K>, FieldEncoder<V>, PMNK_Type>]. *)
Module DefaultEncoder.
Definition FieldEncoder (T : plain_ty) : Encoder.t :=
  match T with
  | PScalar k n => AssignmentEncoder.policy k n
  | PString => InlineEncoder.policy TString
  end.

Section KV.
Variable assert_enabled : nat -> bool.
Variables K V : plain_ty.
Variable PMNK_Type : ty.

Definition get_payload_length : value -> value -> N :=
  CompoundEncoder.get_payload_length (FieldEncoder K) (FieldEncoder V) PMNK_Type.

Definition get_payload_length_ptr : memory -> N -> N :=
  CompoundEncoder.get_payload_length_ptr (FieldEncoder K) (FieldEncoder V)
    PMNK_Type.

Definition encode : value -> value -> N -> memory -> memory :=
  CompoundEncoder.encode (FieldEncoder K) (FieldEncoder V) PMNK_Type.

Definition decode
    : memory -> N -> option value -> option value -> option value
      -> outcome pair_decoded :=
  CompoundEncoder.decode assert_enabled (FieldEncoder K) (FieldEncoder V)
    PMNK_Type.
End KV.
End DefaultEncoder.

(** ** Orders and wire format, in the specification's words *)

(** Lexicographic order of byte strings, bytes compared as unsigned. *)
Fixpoint string_lt (a b : list byte) : bool :=
  match a, b with
  | _, [] => false
  | [], _ :: _ => true
  | x :: a', y :: b' =>
      (Byte.to_N x <? Byte.to_N y)
      || ((Byte.to_N x =? Byte.to_N y) && string_lt a' b')
  end.

(** The arithmetic value of an [n]-byte two's complement scalar. *)
Definition signed_value (n : nat) (x : N) : Z :=
  if x <? 2 ^ (8 * N.of_nat n - 1)
  then Z.of_N x
  else (Z.of_N x - 2 ^ (8 * Z.of_nat n))%Z.

(** The natural order of a scalar or string key: unsigned scalars by their
    value, signed scalars by their arithmetic value, byte strings
    lexicographically.  (Tuples are no key type of PMNK extraction.) *)
Definition key_lt (K : ty) (a b : value) : bool :=
  match K with
  | TScalar Unsigned _ => scalar_of a <? scalar_of b
  | TScalar Signed n =>
      (signed_value n (scalar_of a) <? signed_value n (scalar_of b))%Z
  | TString => string_lt (string_of a) (string_of b)
  | TTuple _ => false
  end.

(** The key types whose order the PMNK is to preserve. *)
Definition supported_key (K : ty) : bool :=
  match K with
  | TScalar Unsigned _ | TString => true
  | _ => false
  end.

(** [static_assert(sizeof(K) >= sizeof(PMNK_Type))] for a scalar key. *)
Definition sizeof_fits (K : ty) (sizeof_PMNK : nat) : bool :=
  match K with
  | TScalar _ sizeof_K => (sizeof_PMNK <=? sizeof_K)%nat
  | _ => true
  end.

(** A number read from bytes given most significant first. *)
Definition big_endian_value (bs : list byte) : N := object_value (rev bs).

(** The first [n] bytes of [s], zero-padded on the right. *)
Definition padded_prefix (n : nat) (s : list byte) : list byte :=
  firstn n s ++ repeat "000"%byte (n - length s).

Section Fields.
Context {A : Type} (f : ty -> value -> A).
(** [f] at each field type and the field of the same index. *)
Fixpoint map_fields (Ts : list ty) (fs : list value) : list A :=
  match Ts, fs with
  | T :: Ts, v :: fs => f T v :: map_fields Ts fs
  | _, _ => []
  end.
End Fields.

(** Scalars as their raw bytes, byte strings as a 16-bit little-endian
    length followed by the bytes, tuples as the concatenation of their
    fields. *)
Fixpoint wire_format (T : ty) (v : value) : list byte :=
  match T, v with
  | TScalar _ n, VScalar x => object_repr n x
  | TString, VString s => object_repr 2 (N.of_nat (length s)) ++ s
  | TTuple Ts, VTuple fs => concat (map_fields wire_format Ts fs)
  | _, _ => []
  end.

Definition sum_N (l : list N) : N := fold_right N.add 0 l.

(** The bytes the encoder of [T] writes for [v]: what [encode] leaves in a
    scratch buffer. *)
Definition encoding (T : ty) (v : value) : list byte :=
  load_bytes (fst (InlineEncoder.encode T v 0 zero_memory)) 0
    (N.to_nat (InlineEncoder.get_payload_length T v)).

(** The scalars and byte strings a type, respectively a value, is made of,
    from left to right through all nested tuples. *)
Fixpoint leaf_types (T : ty) : list ty :=
  match T with
  | TTuple Ts => flat_map leaf_types Ts
  | _ => [T]
  end.

Fixpoint leaves (v : value) : list value :=
  match v with
  | VTuple fs => flat_map leaves fs
  | _ => [v]
  end.

(** ** Properties of one type, proved by induction on types *)

(** [encode] at [T] writes the wire format and returns the pointer past it. *)
Definition encode_wire_at (T : ty) : Prop :=
  forall v, has_type T v = true -> forall dest m,
  InlineEncoder.encode T v dest m
  = (store_bytes m dest (wire_format T v),
     dest + N.of_nat (length (wire_format T v))).

(** The pointer [decode] returns at [T] does not depend on the output
    argument. *)
Definition decode_end_at (T : ty) : Prop :=
  forall m src o o',
  end_ptr (InlineEncoder.decode T m src o)
  = end_ptr (InlineEncoder.decode T m src o').

(** [decode] at [T] reads back what the wire format holds. *)
Definition decode_wire_at (T : ty) : Prop :=
  forall v out, has_type T v = true -> short_strings v = true ->
  has_type T out = true ->
  forall m src,
  load_bytes m src (length (wire_format T v)) = wire_format T v ->
  InlineEncoder.decode T m src (Some out)
  = {| end_ptr := src + N.of_nat (length (wire_format T v));
       output := Some v; allocated := [] |}.

(** ** Facts about object representations *)

Lemma byte_of_N_to_N (n : N) : Byte.to_N (byte_of_N n) = n mod 256.
Proof.
  unfold byte_of_N.
  destruct (Byte.of_N (n mod 256)) as [b|] eqn:E.
  - now apply Byte.to_of_N.
  - apply Byte.of_N_None_iff in E.
    pose proof (N.mod_lt n 256 ltac:(discriminate)). lia.
Qed.

Lemma byte_of_to_N (b : byte) : byte_of_N (Byte.to_N b) = b.
Proof.
  unfold byte_of_N.
  rewrite N.mod_small by (pose proof (Byte.to_N_bounded b); lia).
  now rewrite Byte.of_to_N.
Qed.

Lemma to_N_lt_256 (b : byte) : Byte.to_N b < 256.
Proof. pose proof (Byte.to_N_bounded b); lia. Qed.

Lemma length_object_repr (n : nat) (x : N) : length (object_repr n x) = n.
Proof. revert x; induction n; intros; simpl; auto. Qed.

Lemma pow256_succ (n : nat) : 256 ^ N.of_nat (S n) = 256 * 256 ^ N.of_nat n.
Proof. rewrite Nat2N.inj_succ, N.pow_succ_r'; reflexivity. Qed.

Lemma pow256_pos (n : nat) : 0 < 256 ^ N.of_nat n.
Proof. apply N.neq_0_lt_0, N.pow_nonzero; discriminate. Qed.

Lemma object_value_lt (bs : list byte) :
  object_value bs < 256 ^ N.of_nat (length bs).
Proof.
  induction bs as [|b bs IH].
  - simpl; lia.
  - cbn [object_value length]. rewrite pow256_succ.
    pose proof (to_N_lt_256 b). lia.
Qed.

Lemma object_value_repr (n : nat) (x : N) :
  object_value (object_repr n x) = x mod 256 ^ N.of_nat n.
Proof.
  revert x; induction n as [|n IH]; intros x.
  - simpl. now rewrite N.mod_1_r.
  - cbn [object_repr object_value]. rewrite IH, byte_of_N_to_N, pow256_succ.
    rewrite N.Div0.mod_mul_r. lia.
Qed.

Lemma object_repr_value (bs : list byte) :
  object_repr (length bs) (object_value bs) = bs.
Proof.
  induction bs as [|b bs IH]; [reflexivity|].
  cbn [length object_repr object_value].
  pose proof (to_N_lt_256 b) as Hb.
  assert (Hq : (Byte.to_N b + 256 * object_value bs) / 256 = object_value bs).
  { rewrite N.mul_comm, N.div_add by discriminate.
    rewrite N.div_small by assumption. reflexivity. }
  assert (Hr : byte_of_N (Byte.to_N b + 256 * object_value bs) = b).
  { rewrite <- (byte_of_to_N b) at 2. unfold byte_of_N.
    rewrite N.mul_comm, N.Div0.mod_add. reflexivity. }
  now rewrite Hq, Hr, IH.
Qed.

Lemma object_value_repr_small (n : nat) (x : N) :
  x < 256 ^ N.of_nat n -> object_value (object_repr n x) = x.
Proof. intros H. rewrite object_value_repr. now apply N.mod_small. Qed.

Lemma swap_bytes_rev (bs : list byte) : swap_bytes (length bs) bs = rev bs.
Proof.
  unfold swap_bytes.
  apply nth_ext with (d := "000"%byte) (d' := "000"%byte).
  - now rewrite length_map, length_seq, length_rev.
  - intros i Hi. rewrite length_map, length_seq in Hi.
    rewrite (nth_indep _ _ (nth (length bs - 0 - 1) bs "000"%byte))
      by now rewrite length_map, length_seq.
    rewrite (map_nth (fun k => nth (length bs - k - 1) bs "000"%byte)).
    rewrite seq_nth by assumption.
    rewrite rev_nth by assumption.
    f_equal. lia.
Qed.

Lemma length_swap_bytes (n : nat) (bs : list byte) : length (swap_bytes n bs) = n.
Proof. unfold swap_bytes. now rewrite length_map, length_seq. Qed.

(** The object representation of a swapped scalar is the reversed one. *)
Lemma object_repr_swap (n : nat) (u : N) :
  object_repr n (swap_endianness n u) = rev (object_repr n u).
Proof.
  unfold swap_endianness.
  pose proof (length_object_repr n u) as L.
  rewrite <- L at 2. rewrite swap_bytes_rev.
  rewrite <- (length_rev (object_repr n u)) in L.
  rewrite <- L at 1. apply object_repr_value.
Qed.

(** C10: swap_endianness is an involution on every fixed-size scalar type:
    for a type of [n] bytes and every value [u] of that type,
    [swap_endianness (swap_endianness u) = u]. *)
Theorem swap_endianness_involutive (n : nat) (u : N) :
  u < 256 ^ N.of_nat n ->
  swap_endianness n (swap_endianness n u) = u.
Proof.
  intros Hu.
  unfold swap_endianness at 1.
  rewrite object_repr_swap.
  pose proof (length_object_repr n u) as L.
  rewrite <- (length_rev (object_repr n u)) in L.
  rewrite <- L at 1. rewrite swap_bytes_rev, rev_involutive.
  now apply object_value_repr_small.
Qed.

Lemma swap_endianness_involutive_witness :
  305419896 < 256 ^ N.of_nat 4 /\
  swap_endianness 4 305419896 = 2018915346 /\
  swap_endianness 4 (swap_endianness 4 305419896) = 305419896.
Proof.
  split; [reflexivity|]. split; [reflexivity|].
  apply (swap_endianness_involutive 4 305419896). reflexivity.
Defined.

(** ** Facts about memory *)

Lemma store_bytes_outside (bs : list byte) :
  forall m a a', a' < a \/ a + N.of_nat (length bs) <= a' ->
  store_bytes m a bs a' = m a'.
Proof.
  induction bs as [|b bs IH]; intros m a a' H; [reflexivity|].
  cbn [store_bytes]. rewrite IH.
  - unfold store. destruct (N.eqb_spec a' a); [|reflexivity].
    cbn [length] in H. lia.
  - cbn [length] in H. lia.
Qed.

Lemma load_bytes_ext (n : nat) :
  forall m m' a,
  (forall i, a <= i < a + N.of_nat n -> m i = m' i) ->
  load_bytes m a n = load_bytes m' a n.
Proof.
  induction n as [|n IH]; intros m m' a H; [reflexivity|].
  cbn [load_bytes]. f_equal.
  - apply H. lia.
  - apply IH. intros i Hi. apply H. lia.
Qed.

Lemma load_store_bytes (bs : list byte) :
  forall m a, load_bytes (store_bytes m a bs) a (length bs) = bs.
Proof.
  induction bs as [|b bs IH]; intros m a; [reflexivity|].
  cbn [store_bytes length load_bytes]. f_equal.
  - rewrite store_bytes_outside by lia.
    unfold store. now rewrite N.eqb_refl.
  - apply IH.
Qed.

Lemma store_bytes_app (xs ys : list byte) :
  forall m a,
  store_bytes m a (xs ++ ys)
  = store_bytes (store_bytes m a xs) (a + N.of_nat (length xs)) ys.
Proof.
  induction xs as [|x xs IH]; intros m a.
  - cbn [app store_bytes length N.of_nat]. now rewrite N.add_0_r.
  - cbn [app store_bytes length]. rewrite IH. f_equal. lia.
Qed.

Lemma load_bytes_app (n k : nat) :
  forall m a,
  load_bytes m a (n + k)
  = load_bytes m a n ++ load_bytes m (a + N.of_nat n) k.
Proof.
  induction n as [|n IH]; intros m a.
  - cbn [Nat.add load_bytes app N.of_nat]. now rewrite N.add_0_r.
  - cbn [Nat.add load_bytes app]. rewrite IH. do 3 f_equal. lia.
Qed.

Lemma length_load_bytes (n : nat) : forall m a, length (load_bytes m a n) = n.
Proof. induction n; intros; cbn [load_bytes length]; auto. Qed.

Lemma app_eq_same_length {A : Type} (a c b d : list A) :
  length a = length c -> a ++ b = c ++ d -> a = c /\ b = d.
Proof.
  revert c; induction a as [|x a IH]; intros [|y c] L E; try discriminate.
  - now split.
  - injection L as L. injection E as -> E.
    destruct (IH c L E) as [-> ->]. now split.
Qed.

(** Memory holds [xs ++ ys] at [a] exactly when it holds [xs] at [a] and
    [ys] right after. *)
Lemma load_bytes_app_eq (xs ys : list byte) (m : memory) (a : N) :
  load_bytes m a (length (xs ++ ys)) = xs ++ ys <->
  load_bytes m a (length xs) = xs
  /\ load_bytes m (a + N.of_nat (length xs)) (length ys) = ys.
Proof.
  rewrite length_app, load_bytes_app. split.
  - intros H. apply app_eq_same_length in H; [exact H|].
    apply length_load_bytes.
  - intros [-> ->]. reflexivity.
Qed.

Lemma load_bytes_store_before (bs : list byte) (m : memory) (a b : N) (n : nat) :
  a + N.of_nat n <= b ->
  load_bytes (store_bytes m b bs) a n = load_bytes m a n.
Proof.
  intros H. apply load_bytes_ext. intros i Hi.
  apply store_bytes_outside. lia.
Qed.

Lemma object_repr_mod (n : nat) : forall x,
  object_repr n (x mod 256 ^ N.of_nat n) = object_repr n x.
Proof.
  intros x.
  rewrite <- (object_repr_value (object_repr n (x mod _))).
  rewrite <- (object_repr_value (object_repr n x)).
  rewrite !length_object_repr, !object_value_repr.
  now rewrite N.Div0.mod_mod.
Qed.

(** ** Typing facts *)

Lemma has_type_scalar k n v :
  has_type (TScalar k n) v = true ->
  exists x, v = VScalar x /\ x < 256 ^ N.of_nat n.
Proof.
  destruct v as [x| |]; cbn [has_type]; try discriminate.
  intros H. exists x. split; [reflexivity|]. now apply N.ltb_lt.
Qed.

Lemma has_type_string v :
  has_type TString v = true -> exists s, v = VString s.
Proof. destruct v as [|s|]; cbn [has_type]; try discriminate. now exists s. Qed.

Lemma has_type_tuple Ts v :
  has_type (TTuple Ts) v = true ->
  exists fs, v = VTuple fs /\ forall2b has_type Ts fs = true.
Proof. destruct v as [| |fs]; cbn [has_type]; try discriminate. now exists fs. Qed.

Lemma forall2b_length {A B} (f : A -> B -> bool) (l : list A) :
  forall l', forall2b f l l' = true -> length l = length l'.
Proof.
  induction l as [|x l IH]; intros [|y l'] H; try discriminate; [reflexivity|].
  cbn [forall2b] in H. apply andb_prop in H as [_ H].
  cbn [length]. f_equal. now apply IH.
Qed.

Lemma tuple_get_middle (pre : list value) (f : value) (fs : list value) :
  tuple_get (length pre) (VTuple (pre ++ f :: fs)) = f.
Proof. cbn [tuple_get]. apply nth_middle. Qed.

Lemma replace_nth_middle (pre : list value) (g f : value) (fs : list value) :
  replace_nth (length pre) (pre ++ g :: fs) f = pre ++ f :: fs.
Proof. induction pre as [|p pre IH]; cbn; [reflexivity|]. now rewrite IH. Qed.

Lemma snoc_app {A} (pre : list A) (f : A) (fs : list A) :
  pre ++ f :: fs = (pre ++ [f]) ++ fs.
Proof. now rewrite <- app_assoc. Qed.

Lemma length_snoc {A} (pre : list A) (f : A) : S (length pre) = length (pre ++ [f]).
Proof. rewrite length_app. cbn. lia. Qed.

(** ** The encoders write the wire format *)

Lemma pow_2_16 : 2 ^ 16 = 256 ^ N.of_nat 2.
Proof. reflexivity. Qed.

Lemma string_encode_wire (s : list byte) (dest : N) (m : memory) :
  InlineString.encode (VString s) dest m
  = (store_bytes m dest (wire_format TString (VString s)),
     dest + N.of_nat (length (wire_format TString (VString s)))).
Proof.
  unfold InlineString.encode, InlineString.to_LengthType, store_scalar,
    InlineString.sizeof_LengthType.
  cbn [string_of wire_format].
  rewrite pow_2_16, object_repr_mod, store_bytes_app, length_app.
  rewrite length_object_repr. f_equal. lia.
Qed.

Lemma helper_encode_wire (rest : list ty) :
  list_all ty encode_wire_at rest ->
  forall fs pre dest m,
  forall2b has_type rest fs = true ->
  TupleEncodingHelper.encode InlineEncoder.encode rest (length pre)
    (VTuple (pre ++ fs)) dest m
  = (store_bytes m dest (concat (map_fields wire_format rest fs)),
     dest + N.of_nat (length (concat (map_fields wire_format rest fs)))).
Proof.
  induction 1 as [|T HT rest _ IH]; intros [|f fs] pre dest m H;
    try discriminate.
  - cbn. now rewrite N.add_0_r.
  - cbn [forall2b] in H. apply andb_prop in H as [Hf Hfs].
    cbn [TupleEncodingHelper.encode map_fields concat].
    rewrite tuple_get_middle, (HT f Hf).
    rewrite (snoc_app pre f fs), (length_snoc pre f), (IH fs (pre ++ [f]) _ _ Hfs).
    rewrite store_bytes_app, length_app. f_equal. lia.
Qed.

Lemma encode_wire (T : ty) : encode_wire_at T.
Proof.
  induction T as [k n| |Ts IH]; intros v Hv dest m.
  - apply has_type_scalar in Hv as (x & -> & _).
    cbn [InlineEncoder.encode wire_format].
    unfold AssignmentEncoder.encode, store_scalar. cbn [scalar_of].
    now rewrite length_object_repr.
  - apply has_type_string in Hv as (s & ->).
    cbn [InlineEncoder.encode]. apply string_encode_wire.
  - apply has_type_tuple in Hv as (fs & -> & Hfs).
    cbn [InlineEncoder.encode wire_format].
    apply (helper_encode_wire Ts IH fs [] dest m Hfs).
Qed.

Lemma helper_length_wire (rest : list ty) :
  list_all ty
    (fun T => forall v, has_type T v = true ->
       InlineEncoder.get_payload_length T v
       = N.of_nat (length (wire_format T v))) rest ->
  forall fs pre,
  forall2b has_type rest fs = true ->
  TupleEncodingHelper.get_payload_length InlineEncoder.get_payload_length
    rest (length pre) (VTuple (pre ++ fs))
  = N.of_nat (length (concat (map_fields wire_format rest fs))).
Proof.
  induction 1 as [|T HT rest _ IH]; intros [|f fs] pre H; try discriminate.
  - reflexivity.
  - cbn [forall2b] in H. apply andb_prop in H as [Hf Hfs].
    cbn [TupleEncodingHelper.get_payload_length map_fields concat].
    rewrite tuple_get_middle, (HT f Hf).
    rewrite (snoc_app pre f fs), (length_snoc pre f), (IH fs (pre ++ [f]) Hfs).
    rewrite length_app. lia.
Qed.

Lemma length_wire (T : ty) : forall v, has_type T v = true ->
  InlineEncoder.get_payload_length T v = N.of_nat (length (wire_format T v)).
Proof.
  induction T as [k n| |Ts IH]; intros v Hv.
  - apply has_type_scalar in Hv as (x & -> & _).
    cbn. unfold AssignmentEncoder.get_payload_length.
    now rewrite length_object_repr.
  - apply has_type_string in Hv as (s & ->).
    cbn [InlineEncoder.get_payload_length wire_format].
    unfold InlineString.get_payload_length, InlineString.sizeof_LengthType.
    cbn [string_of]. rewrite length_app, length_object_repr. lia.
  - apply has_type_tuple in Hv as (fs & -> & Hfs).
    cbn [InlineEncoder.get_payload_length wire_format].
    apply (helper_length_wire Ts IH fs [] Hfs).
Qed.

(** The bytes an encoder leaves in a scratch buffer are the wire format,
    and it writes the same bytes at any address of any memory. *)
Lemma encoding_wire (T : ty) (v : value) :
  has_type T v = true -> encoding T v = wire_format T v.
Proof.
  intros Hv. unfold encoding.
  rewrite (encode_wire T v Hv), (length_wire T v Hv), Nat2N.id.
  cbn [fst]. apply load_store_bytes.
Qed.

Lemma map_fields_ext {A} (f g : ty -> value -> A) (Ts : list ty) :
  forall fs, forall2b has_type Ts fs = true ->
  (forall T v, has_type T v = true -> f T v = g T v) ->
  map_fields f Ts fs = map_fields g Ts fs.
Proof.
  induction Ts as [|T Ts IH]; intros [|v fs] H E; try discriminate;
    [reflexivity|].
  cbn [forall2b] in H. apply andb_prop in H as [Hv Hfs].
  cbn [map_fields]. rewrite (E T v Hv). f_equal. now apply IH.
Qed.

(** ** Decoding *)

Lemma has_type_value_init (T : ty) : has_type T (value_init T) = true.
Proof.
  induction T as [k n| |Ts IH]; cbn [has_type value_init].
  - apply N.ltb_lt, pow256_pos.
  - reflexivity.
  - induction IH as [|T HT Ts _ IHTs]; [reflexivity|].
    cbn [map forall2b]. now rewrite HT, IHTs.
Qed.

Lemma helper_decode_end (Ts rest : list ty) :
  list_all ty decode_end_at rest ->
  forall n m src t t',
  end_ptr (TupleEncodingHelper.decode InlineEncoder.decode Ts rest n m src t)
  = end_ptr (TupleEncodingHelper.decode InlineEncoder.decode Ts rest n m src t').
Proof.
  induction 1 as [|T HT rest _ IH]; intros n m src t t'; [reflexivity|].
  cbn [TupleEncodingHelper.decode].
  destruct t as [obj|], t' as [obj'|]; cbn [end_ptr]; try reflexivity;
    match goal with
    | |- end_ptr (_ _ _ _ _ _ (end_ptr (_ _ _ _ ?a)) ?x)
         = end_ptr (_ _ _ _ _ _ (end_ptr (_ _ _ _ ?b)) ?y) =>
        rewrite (HT m src a b); apply IH
    end.
Qed.

Lemma decode_end (T : ty) : decode_end_at T.
Proof.
  induction T as [k n| |Ts IH]; intros m src o o'.
  - reflexivity.
  - reflexivity.
  - cbn [InlineEncoder.decode]. now apply helper_decode_end.
Qed.

(** With a null output and at least one field left, the helper decodes into
    a fresh value-initialised tuple exactly as it would into a caller's, and
    leaves that tuple behind. *)
Lemma helper_decode_null (Ts : list ty) (T : ty) (rest : list ty)
    (n : nat) (m : memory) (src : N) :
  let r := TupleEncodingHelper.decode InlineEncoder.decode Ts (T :: rest) n m
             src (Some (value_init (TTuple Ts))) in
  exists obj, output r = Some obj /\
  TupleEncodingHelper.decode InlineEncoder.decode Ts (T :: rest) n m src None
  = {| end_ptr := end_ptr r; output := None;
       allocated := allocated r ++ [obj] |}.
Proof.
  cbn [TupleEncodingHelper.decode output end_ptr allocated].
  eexists. split; [reflexivity|].
  now rewrite <- app_assoc.
Qed.

Lemma helper_decode_wire (Ts rest : list ty) :
  list_all ty decode_wire_at rest ->
  forall fs outs pre m src,
  forall2b has_type rest fs = true -> forallb short_strings fs = true ->
  forall2b has_type rest outs = true ->
  load_bytes m src (length (concat (map_fields wire_format rest fs)))
  = concat (map_fields wire_format rest fs) ->
  TupleEncodingHelper.decode InlineEncoder.decode Ts rest (length pre) m src
    (Some (VTuple (pre ++ outs)))
  = {| end_ptr := src + N.of_nat (length (concat (map_fields wire_format rest fs)));
       output := Some (VTuple (pre ++ fs)); allocated := [] |}.
Proof.
  induction 1 as [|T HT rest _ IH]; intros [|f fs] [|o outs] pre m src Hfs Hs Ho Hm;
    try discriminate.
  - cbn. now rewrite N.add_0_r.
  - cbn [forall2b] in Hfs, Ho. cbn [forallb] in Hs.
    apply andb_prop in Hfs as [Hf Hfs], Ho as [Ho Houts], Hs as [Hsf Hsfs].
    cbn [map_fields concat] in Hm |- *.
    apply load_bytes_app_eq in Hm as [Hm1 Hm2].
    cbn [TupleEncodingHelper.decode].
    rewrite tuple_get_middle, (HT f o Hf Hsf Ho m src Hm1).
    cbn [output end_ptr allocated tuple_set].
    rewrite replace_nth_middle.
    rewrite (snoc_app pre f outs), (length_snoc pre f).
    rewrite (IH fs outs (pre ++ [f]) m _ Hfs Hsfs Houts Hm2).
    cbn [output end_ptr allocated app].
    rewrite <- (snoc_app pre f fs), length_app. f_equal. lia.
Qed.

Lemma string_decode_wire (s : list byte) :
  N.of_nat (length s) < 65536 ->
  forall m src o,
  load_bytes m src (length (wire_format TString (VString s)))
  = wire_format TString (VString s) ->
  InlineString.decode m src (Some o)
  = {| end_ptr := src + N.of_nat (length (wire_format TString (VString s)));
       output := Some (VString s); allocated := [] |}.
Proof.
  intros Hs m src o Hm. cbn [wire_format] in *.
  apply load_bytes_app_eq in Hm as [Hm1 Hm2].
  rewrite length_object_repr in Hm1, Hm2.
  unfold InlineString.decode, load_scalar, InlineString.sizeof_LengthType.
  rewrite Hm1, object_value_repr_small by (cbn; lia).
  rewrite Nat2N.id, Hm2, length_app, length_object_repr.
  f_equal. lia.
Qed.

Lemma decode_wire (T : ty) : decode_wire_at T.
Proof.
  induction T as [k n| |Ts IH]; intros v out Hv Hs Hout m src Hm.
  - apply has_type_scalar in Hv as (x & -> & Hx).
    cbn [InlineEncoder.decode wire_format] in *.
    unfold AssignmentEncoder.decode, load_scalar.
    rewrite length_object_repr in *. rewrite Hm.
    now rewrite object_value_repr_small.
  - apply has_type_string in Hv as (s & ->).
    cbn [InlineEncoder.decode]. apply string_decode_wire; [|exact Hm].
    cbn [short_strings] in Hs. now apply N.ltb_lt.
  - apply has_type_tuple in Hv as (fs & -> & Hfs).
    apply has_type_tuple in Hout as (outs & -> & Houts).
    cbn [InlineEncoder.decode wire_format short_strings] in *.
    apply (helper_decode_wire Ts Ts IH fs outs [] m src Hfs Hs Houts Hm).
Qed.

(** Decoding what [encode] wrote gives back the value and the pointer
    [encode] returned. *)
Lemma decode_encode (T : ty) (v out : value) (dest : N) (m : memory) :
  has_type T v = true -> short_strings v = true -> has_type T out = true ->
  InlineEncoder.decode T (fst (InlineEncoder.encode T v dest m)) dest (Some out)
  = {| end_ptr := snd (InlineEncoder.encode T v dest m);
       output := Some v; allocated := [] |}.
Proof.
  intros Hv Hs Hout. rewrite (encode_wire T v Hv). cbn [fst snd].
  apply decode_wire; try assumption. apply load_store_bytes.
Qed.

(** ** PMNK extraction computes the leading bytes *)

Lemma skipn_object_repr (j : nat) : forall n x,
  skipn j (object_repr n x) = object_repr (n - j) (x / 256 ^ N.of_nat j).
Proof.
  induction j as [|j IH]; intros n x.
  - cbn [skipn N.of_nat]. now rewrite Nat.sub_0_r, N.pow_0_r, N.div_1_r.
  - destruct n as [|n]; [reflexivity|].
    cbn [object_repr skipn Nat.sub]. rewrite IH, pow256_succ.
    now rewrite N.Div0.div_div.
Qed.

Lemma object_repr_zero (n : nat) : object_repr n 0 = repeat "000"%byte n.
Proof. induction n as [|n IH]; [reflexivity|]. cbn. now rewrite IH. Qed.

Lemma skipn_repeat {A} (x : A) (j n : nat) :
  skipn j (repeat x n) = repeat x (n - j).
Proof.
  revert n; induction j as [|j IH]; intros n.
  - now rewrite Nat.sub_0_r.
  - destruct n as [|n]; [reflexivity|]. cbn. apply IH.
Qed.

Section PrefixingFacts.
Variable indeterminate : nat -> byte.

Lemma length_uninitialized (n : nat) : length (uninitialized indeterminate n) = n.
Proof. unfold uninitialized. now rewrite length_map, length_seq. Qed.

Lemma union_write_all (u bs : list byte) :
  length u = length bs -> union_write u bs = bs.
Proof.
  intros L. unfold union_write.
  rewrite skipn_all2 by lia. apply app_nil_r.
Qed.

Lemma union_read_write (u bs : list byte) :
  union_read (union_write u bs) (length bs) = bs.
Proof.
  unfold union_read, union_write.
  rewrite firstn_app, Nat.sub_diag, firstn_all. cbn. apply app_nil_r.
Qed.

(** Reading [prefix], swapping it and writing it back leaves in [prefix]
    the number whose most significant byte is the first byte of the union. *)
Lemma union_prefix_swap (u : list byte) (p : nat) :
  (p <= length u)%nat ->
  object_value
    (union_read
       (union_write u
          (object_repr p (swap_endianness p (object_value (union_read u p)))))
       p)
  = big_endian_value (union_read u p).
Proof.
  intros Hp. unfold union_read at 2 3.
  assert (L : length (firstn p u) = p) by (rewrite length_firstn; lia).
  set (pre := firstn p u) in *.
  assert (S : swap_endianness p (object_value pre) = big_endian_value pre).
  { unfold swap_endianness, big_endian_value.
    rewrite <- L at 2. rewrite object_repr_value.
    rewrite <- L at 1. now rewrite swap_bytes_rev. }
  rewrite S.
  pose proof (union_read_write u (object_repr p (big_endian_value pre))) as R.
  rewrite length_object_repr in R. rewrite R.
  apply object_value_repr_small.
  unfold big_endian_value.
  pose proof (object_value_lt (rev pre)) as B.
  now rewrite length_rev, L in B.
Qed.

(** The object representation of the scalar prefix: the last
    [sizeof(PMNK_Type)] bytes of the key's representation, which are its
    most significant ones. *)
Lemma PoormanPrefixing_big_endian (k p : nat) (key : N) :
  (p <= k)%nat ->
  PoormanPrefixing indeterminate k p key
  = big_endian_value (firstn p (rev (object_repr k key))).
Proof.
  intros Hp. unfold PoormanPrefixing.
  rewrite (proj2 (Nat.leb_le p k) Hp).
  rewrite (union_write_all (uninitialized indeterminate (Nat.max k p))
             (object_repr k (swap_endianness k key)))
    by (rewrite length_uninitialized, length_object_repr; lia).
  rewrite object_repr_swap.
  apply union_prefix_swap.
  rewrite length_rev, length_object_repr. exact Hp.
Qed.

Lemma PoormanPrefixing_shift (k p : nat) (key : N) :
  (p <= k)%nat -> key < 256 ^ N.of_nat k ->
  PoormanPrefixing indeterminate k p key = key / 256 ^ N.of_nat (k - p).
Proof.
  intros Hp Hkey. rewrite PoormanPrefixing_big_endian by exact Hp.
  unfold big_endian_value.
  rewrite firstn_rev, rev_involutive, length_object_repr, skipn_object_repr.
  replace (k - (k - p))%nat with p by lia.
  apply object_value_repr_small.
  apply N.Div0.div_lt_upper_bound.
  rewrite <- N.pow_add_r, <- Nat2N.inj_add.
  now replace (k - p + p)%nat with k by lia.
Qed.

Lemma PoormanPrefixing_string_padded (p : nat) (s : list byte) :
  PoormanPrefixing_string indeterminate p s
  = big_endian_value (padded_prefix p s).
Proof.
  unfold PoormanPrefixing_string.
  assert (U : exists u, length u = p /\ u = padded_prefix p s /\
            (let '(u, amount) :=
               if (length s <? p)%nat
               then (union_write (uninitialized indeterminate p)
                       (object_repr p 0), length s)
               else (uninitialized indeterminate p, p) in
             union_write u (firstn amount s)) = u).
  { exists (padded_prefix p s). split; [|split; [reflexivity|]].
    - unfold padded_prefix.
      rewrite length_app, length_firstn, repeat_length. lia.
    - unfold padded_prefix.
      destruct (Nat.ltb_spec (length s) p) as [Hlt|Hge].
      + rewrite (union_write_all (uninitialized indeterminate p)
                   (object_repr p 0))
          by (rewrite length_uninitialized, length_object_repr; lia).
        unfold union_write. rewrite firstn_all, object_repr_zero, skipn_repeat.
        now rewrite firstn_all2 by lia.
      + unfold union_write.
        rewrite skipn_all2
          by (rewrite length_uninitialized, length_firstn; lia).
        now replace (p - length s)%nat with O by lia. }
  destruct U as (u & L & -> & E).
  destruct (length s <? p)%nat; rewrite E;
    rewrite union_prefix_swap by lia;
    unfold union_read; now rewrite <- L at 1; rewrite firstn_all.
Qed.

End PrefixingFacts.

(** ** Order of the extracted prefixes *)

Lemma object_value_app (a b : list byte) :
  object_value (a ++ b)
  = object_value a + 256 ^ N.of_nat (length a) * object_value b.
Proof.
  induction a as [|x a IH].
  - cbn [app object_value length N.of_nat]. rewrite N.pow_0_r. lia.
  - cbn [app object_value length]. rewrite IH, pow256_succ. lia.
Qed.

Lemma big_endian_cons (x : byte) (l : list byte) :
  big_endian_value (x :: l)
  = Byte.to_N x * 256 ^ N.of_nat (length l) + big_endian_value l.
Proof.
  unfold big_endian_value. cbn [rev].
  rewrite object_value_app, length_rev. cbn [object_value]. lia.
Qed.

Lemma big_endian_lt (l : list byte) :
  big_endian_value l < 256 ^ N.of_nat (length l).
Proof.
  unfold big_endian_value. rewrite <- (length_rev l). apply object_value_lt.
Qed.

Lemma padded_prefix_cons (p : nat) (x : byte) (s : list byte) :
  padded_prefix (S p) (x :: s) = x :: padded_prefix p s.
Proof. reflexivity. Qed.

Lemma padded_prefix_nil (p : nat) :
  padded_prefix (S p) [] = "000"%byte :: padded_prefix p [].
Proof.
  unfold padded_prefix. rewrite !firstn_nil. cbn [length app].
  now rewrite !Nat.sub_0_r.
Qed.

Lemma length_padded_prefix (p : nat) (s : list byte) :
  length (padded_prefix p s) = p.
Proof.
  unfold padded_prefix. rewrite length_app, length_firstn, repeat_length. lia.
Qed.

Lemma to_N_inj (x y : byte) : Byte.to_N x = Byte.to_N y -> x = y.
Proof.
  intros E. apply (f_equal Byte.of_N) in E.
  rewrite !Byte.of_to_N in E. now injection E.
Qed.

Lemma string_lt_total (a : list byte) : forall b,
  string_lt a b = false -> a = b \/ string_lt b a = true.
Proof.
  induction a as [|x a IH]; intros [|y b] H; cbn [string_lt] in *.
  - now left.
  - discriminate.
  - now right.
  - apply orb_false_elim in H as [Hxy H].
    apply N.ltb_ge in Hxy.
    destruct (N.eqb_spec (Byte.to_N x) (Byte.to_N y)) as [E|NE].
    + cbn [andb] in H. apply to_N_inj in E as ->.
      destruct (IH b H) as [-> | Hb]; [now left|right].
      now rewrite N.eqb_refl, Hb, orb_true_r.
    + right. apply orb_true_intro. left. apply N.ltb_lt. lia.
Qed.

Lemma padded_prefix_monotone (p : nat) : forall a b,
  string_lt a b = true \/ a = b ->
  big_endian_value (padded_prefix p a) <= big_endian_value (padded_prefix p b).
Proof.
  induction p as [|p IH]; intros a b H.
  - unfold padded_prefix. cbn. lia.
  - destruct H as [H | ->]; [|lia].
    destruct a as [|x a], b as [|y b]; cbn [string_lt] in H; try discriminate.
    + rewrite padded_prefix_nil, padded_prefix_cons, !big_endian_cons.
      rewrite !length_padded_prefix.
      assert (I : big_endian_value (padded_prefix p [])
                  <= big_endian_value (padded_prefix p b)).
      { apply IH. destruct b; [now right|now left]. }
      cbn [Byte.to_N]. lia.
    + rewrite !padded_prefix_cons, !big_endian_cons, !length_padded_prefix.
      apply orb_prop in H as [H | H].
      * apply N.ltb_lt in H.
        pose proof (big_endian_lt (padded_prefix p a)) as B.
        rewrite length_padded_prefix in B. nia.
      * apply andb_prop in H as [E H]. apply N.eqb_eq in E. rewrite E.
        apply N.add_le_mono_l, IH. now left.
Qed.

Lemma is_same_refl (T : ty) : is_same T T = true.
Proof.
  induction T as [k n| |Ts IH]; cbn [is_same].
  - rewrite Nat.eqb_refl. now destruct k.
  - reflexivity.
  - induction IH as [|T HT Ts _ IHTs]; [reflexivity|].
    cbn [forall2b]. now rewrite HT, IHTs.
Qed.

Section PmnkOrder.
Variable indeterminate : nat -> byte.

(** PMNK of a scalar key, whether through [NoPrefixing] or through
    [PoormanPrefixing]: the key shifted down to its leading bytes. *)
Lemma get_pmnk_unsigned_scalar (kp : scalar_kind) (k p : nat) (x : N) :
  (p <= k)%nat -> x < 256 ^ N.of_nat k ->
  get_pmnk indeterminate (TScalar Unsigned k) (TScalar kp p) (VScalar x)
  = Some (VScalar (x / 256 ^ N.of_nat (k - p))).
Proof.
  intros Hp Hx. unfold get_pmnk. cbn [is_same].
  destruct (scalar_kind_eqb kp Unsigned && (p =? k)%nat) eqn:E.
  - apply andb_prop in E as [_ E]. apply Nat.eqb_eq in E as ->.
    unfold NoPrefixing. now rewrite Nat.sub_diag, N.pow_0_r, N.div_1_r.
  - rewrite (proj2 (Nat.leb_le p k) Hp). cbn [scalar_of].
    now rewrite PoormanPrefixing_shift.
Qed.

Lemma get_pmnk_string (kp : scalar_kind) (p : nat) (s : list byte) :
  get_pmnk indeterminate TString (TScalar kp p) (VString s)
  = Some (VScalar (big_endian_value (padded_prefix p s))).
Proof.
  unfold get_pmnk. cbn [is_same string_of].
  now rewrite PoormanPrefixing_string_padded.
Qed.

End PmnkOrder.

(** ** PMNK extraction: the claims *)

(** C1: PMNK extraction is order-preserving.  For a supported key type (an
    unsigned scalar at least as wide as the PMNK, or a byte string) and a
    scalar PMNK type of [p] bytes, [get_pmnk] yields a PMNK for every key,
    and for any two keys, comparing PMNKs as unsigned integers: a smaller
    key never has a larger PMNK, equal keys have equal PMNKs, and a strictly
    smaller PMNK means a strictly smaller key, so that only PMNK ties need
    the full keys. *)
Theorem pmnk_order_preserving (indeterminate : nat -> byte) (K : ty)
    (kp : scalar_kind) (p : nat) (k1 k2 : value) :
  supported_key K = true -> sizeof_fits K p = true ->
  has_type K k1 = true -> has_type K k2 = true ->
  exists p1 p2,
    get_pmnk indeterminate K (TScalar kp p) k1 = Some (VScalar p1)
    /\ get_pmnk indeterminate K (TScalar kp p) k2 = Some (VScalar p2)
    /\ (key_lt K k1 k2 = true -> p1 <= p2)
    /\ (k1 = k2 -> p1 = p2)
    /\ (p1 < p2 -> key_lt K k1 k2 = true).
Proof.
  intros HK Hp H1 H2.
  destruct K as [[|] k| |Ts]; try discriminate.
  - apply has_type_scalar in H1 as (x1 & -> & B1).
    apply has_type_scalar in H2 as (x2 & -> & B2).
    cbn [sizeof_fits] in Hp. apply Nat.leb_le in Hp.
    exists (x1 / 256 ^ N.of_nat (k - p)), (x2 / 256 ^ N.of_nat (k - p)).
    rewrite !get_pmnk_unsigned_scalar by assumption.
    cbn [key_lt scalar_of]. repeat split.
    + intros L. apply N.ltb_lt in L. apply N.Div0.div_le_mono. lia.
    + now intros [= ->].
    + intros L. apply N.ltb_lt.
      destruct (N.lt_ge_cases x1 x2) as [|G]; [assumption|].
      apply (N.Div0.div_le_mono _ _ (256 ^ N.of_nat (k - p))) in G. lia.
  - apply has_type_string in H1 as (s1 & ->).
    apply has_type_string in H2 as (s2 & ->).
    exists (big_endian_value (padded_prefix p s1)),
           (big_endian_value (padded_prefix p s2)).
    rewrite !get_pmnk_string. cbn [key_lt string_of]. repeat split.
    + intros L. apply padded_prefix_monotone. now left.
    + now intros [= ->].
    + intros L. destruct (string_lt s1 s2) eqn:E; [reflexivity|].
      apply string_lt_total in E.
      assert (G : big_endian_value (padded_prefix p s2)
                  <= big_endian_value (padded_prefix p s1)).
      { apply padded_prefix_monotone.
        destruct E as [-> | E]; [now right|now left]. }
      lia.
Qed.

Lemma pmnk_order_preserving_witness :
  exists p1 p2,
    get_pmnk (fun _ => "255"%byte) TString (TScalar Unsigned 2)
      (VString ["a"; "p"; "p"; "l"; "e"]%byte) = Some (VScalar p1)
    /\ get_pmnk (fun _ => "255"%byte) TString (TScalar Unsigned 2)
      (VString ["a"; "p"; "r"; "i"; "c"; "o"; "t"]%byte) = Some (VScalar p2)
    /\ (key_lt TString (VString ["a"; "p"; "p"; "l"; "e"]%byte)
          (VString ["a"; "p"; "r"; "i"; "c"; "o"; "t"]%byte) = true -> p1 <= p2)
    /\ (VString ["a"; "p"; "p"; "l"; "e"]%byte
        = VString ["a"; "p"; "r"; "i"; "c"; "o"; "t"]%byte -> p1 = p2)
    /\ (p1 < p2 ->
        key_lt TString (VString ["a"; "p"; "p"; "l"; "e"]%byte)
          (VString ["a"; "p"; "r"; "i"; "c"; "o"; "t"]%byte) = true).
Proof.
  apply (pmnk_order_preserving (fun _ => "255"%byte) TString Unsigned 2
           (VString ["a"; "p"; "p"; "l"; "e"]%byte)
           (VString ["a"; "p"; "r"; "i"; "c"; "o"; "t"]%byte));
    reflexivity.
Defined.

(** C4: the PMNK of a byte-string key is its first [sizeof(PMNK)] bytes,
    zero-padded on the right when the key is shorter, read as a number
    whose most significant byte is the first byte of the key; the native
    representation of the PMNK is that padded prefix reversed. *)
Theorem string_pmnk_padded_prefix (indeterminate : nat -> byte)
    (kp : scalar_kind) (p : nat) (s : list byte) :
  get_pmnk indeterminate TString (TScalar kp p) (VString s)
  = Some (VScalar (PoormanPrefixing_string indeterminate p s))
  /\ PoormanPrefixing_string indeterminate p s
     = big_endian_value (padded_prefix p s)
  /\ object_repr p (PoormanPrefixing_string indeterminate p s)
     = rev (padded_prefix p s)
  /\ (forall b s' p',
        PoormanPrefixing_string indeterminate (S p') (b :: s')
        / 256 ^ N.of_nat p' = Byte.to_N b).
Proof.
  split; [|split; [|split]].
  - rewrite get_pmnk_string. now rewrite PoormanPrefixing_string_padded.
  - apply PoormanPrefixing_string_padded.
  - rewrite PoormanPrefixing_string_padded. unfold big_endian_value.
    rewrite <- (length_padded_prefix p s) at 1.
    rewrite <- (length_rev (padded_prefix p s)).
    apply object_repr_value.
  - intros b s' p'.
    rewrite PoormanPrefixing_string_padded, padded_prefix_cons, big_endian_cons.
    rewrite length_padded_prefix.
    pose proof (big_endian_lt (padded_prefix p' s')) as B.
    rewrite length_padded_prefix in B.
    rewrite N.div_add_l by (apply N.pow_nonzero; discriminate).
    rewrite (N.div_small _ _ B). lia.
Qed.

(** C5 (as amended): for a scalar key whose type differs from the PMNK type
    and is at least as wide, the extracted PMNK consists of the
    [sizeof(PMNK)] leading bytes of the key's big-endian representation,
    reversed back to native order, that is, the key shifted down to its
    most significant bytes; for an unsigned key type the unsigned order of
    the PMNKs then follows the order of the keys. *)
Theorem scalar_pmnk_leading_bytes (indeterminate : nat -> byte)
    (kk kp : scalar_kind) (k p : nat) (key : N) :
  is_same (TScalar kp p) (TScalar kk k) = false ->
  (p <= k)%nat -> key < 256 ^ N.of_nat k ->
  get_pmnk indeterminate (TScalar kk k) (TScalar kp p) (VScalar key)
  = Some (VScalar (PoormanPrefixing indeterminate k p key))
  /\ object_repr p (PoormanPrefixing indeterminate k p key)
     = rev (firstn p (rev (object_repr k key)))
  /\ PoormanPrefixing indeterminate k p key = key / 256 ^ N.of_nat (k - p)
  /\ (forall key', key' < 256 ^ N.of_nat k ->
      (key_lt (TScalar Unsigned k) (VScalar key) (VScalar key') = true ->
       PoormanPrefixing indeterminate k p key
       <= PoormanPrefixing indeterminate k p key')
      /\ (PoormanPrefixing indeterminate k p key
          < PoormanPrefixing indeterminate k p key' ->
          key_lt (TScalar Unsigned k) (VScalar key) (VScalar key') = true)).
Proof.
  intros Hne Hp Hkey. split; [|split; [|split; [|intros key' Hkey'; split]]].
  - unfold get_pmnk. rewrite Hne, (proj2 (Nat.leb_le p k) Hp). reflexivity.
  - rewrite PoormanPrefixing_big_endian by exact Hp.
    unfold big_endian_value.
    assert (L : length (rev (firstn p (rev (object_repr k key)))) = p).
    { rewrite length_rev, length_firstn, length_rev, length_object_repr. lia. }
    rewrite <- L at 1. apply object_repr_value.
  - now apply PoormanPrefixing_shift.
  - cbn [key_lt scalar_of]. intros L. apply N.ltb_lt in L.
    rewrite !PoormanPrefixing_shift by assumption.
    apply N.Div0.div_le_mono. lia.
  - cbn [key_lt scalar_of]. rewrite !PoormanPrefixing_shift by assumption.
    intros L. apply N.ltb_lt.
    destruct (N.lt_ge_cases key key') as [|G]; [assumption|].
    apply (N.Div0.div_le_mono _ _ (256 ^ N.of_nat (k - p))) in G. lia.
Qed.

Lemma scalar_pmnk_leading_bytes_witness :
  get_pmnk (fun _ => "255"%byte) (TScalar Unsigned 8) (TScalar Unsigned 2)
    (VScalar 281474976710659)
  = Some (VScalar (PoormanPrefixing (fun _ => "255"%byte) 8 2 281474976710659))
  /\ PoormanPrefixing (fun _ => "255"%byte) 8 2 281474976710659 = 1.
Proof.
  destruct (scalar_pmnk_leading_bytes (fun _ => "255"%byte)
              Unsigned Unsigned 8 2 281474976710659)
    as (G & _ & S & _); [reflexivity | cbn; lia | reflexivity |].
  split; [exact G | reflexivity].
Defined.

(** C5 as first stated fails for a signed key: with [int32_t] keys and a
    two-byte PMNK, [-1 < 1] but the PMNK of [-1] is the larger one. *)
Lemma scalar_pmnk_signed_counterexample :
  key_lt (TScalar Signed 4) (VScalar 4294967295) (VScalar 1) = true
  /\ get_pmnk (fun _ => "000"%byte) (TScalar Signed 4) (TScalar Unsigned 2)
       (VScalar 4294967295) = Some (VScalar 65535)
  /\ get_pmnk (fun _ => "000"%byte) (TScalar Signed 4) (TScalar Unsigned 2)
       (VScalar 1) = Some (VScalar 0)
  /\ ~ (65535 <= 0).
Proof. repeat split; try reflexivity. lia. Qed.

(** ** The byte-string encoder *)

(** The length field holds the length of a string shorter than 2^16. *)
Lemma string_length_field (s : list byte) (dest : N) (m : memory) :
  N.of_nat (length s) < 2 ^ 16 ->
  load_scalar (fst (InlineString.encode (VString s) dest m)) dest 2
  = N.of_nat (length s).
Proof.
  intros Hs. rewrite string_encode_wire. cbn [fst wire_format].
  pose proof (load_store_bytes (object_repr 2 (N.of_nat (length s)) ++ s) m dest)
    as H.
  apply load_bytes_app_eq in H as [H _]. rewrite length_object_repr in H.
  unfold load_scalar. rewrite H. now apply object_value_repr_small.
Qed.

(** C3: byte strings round-trip through the wire format.  For a string [s]
    shorter than 2^16, [encode] writes the 16-bit little-endian length of
    [s] at [dest], the bytes of [s] right after it, touches nothing else and
    returns [dest + 2 + s.length()]; [decode] with a non-null output reads
    [s] back and returns the same pointer; the payload length of [s] is
    [2 + s.length()]. *)
Theorem string_encoding_round_trip (s : list byte) (dest : N) (m : memory)
    (out : value) :
  N.of_nat (length s) < 2 ^ 16 ->
  let r := InlineEncoder.encode TString (VString s) dest m in
  load_scalar (fst r) dest 2 = N.of_nat (length s)
  /\ load_bytes (fst r) dest 2
     = [byte_of_N (N.of_nat (length s)); byte_of_N (N.of_nat (length s) / 256)]
  /\ load_bytes (fst r) (dest + 2) (length s) = s
  /\ (forall a, a < dest \/ dest + 2 + N.of_nat (length s) <= a -> fst r a = m a)
  /\ snd r = dest + 2 + N.of_nat (length s)
  /\ InlineEncoder.decode TString (fst r) dest (Some out)
     = {| end_ptr := snd r; output := Some (VString s); allocated := [] |}
  /\ InlineEncoder.get_payload_length TString (VString s)
     = 2 + N.of_nat (length s).
Proof.
  intros Hs r.
  assert (Hr : r = (store_bytes m dest (object_repr 2 (N.of_nat (length s)) ++ s),
                    dest + N.of_nat (length (object_repr 2 (N.of_nat (length s)) ++ s))))
    by apply string_encode_wire.
  assert (LW : N.of_nat (length (object_repr 2 (N.of_nat (length s)) ++ s))
               = 2 + N.of_nat (length s)).
  { rewrite length_app, length_object_repr. lia. }
  pose proof (load_store_bytes (object_repr 2 (N.of_nat (length s)) ++ s) m dest)
    as Hd.
  pose proof Hd as Hm. apply load_bytes_app_eq in Hm as [Hm1 Hm2].
  rewrite length_object_repr in Hm1, Hm2.
  rewrite Hr. cbn [fst snd].
  split; [|split; [|split; [|split; [|split; [|split]]]]].
  - unfold load_scalar. rewrite Hm1.
    apply object_value_repr_small. exact Hs.
  - exact Hm1.
  - exact Hm2.
  - intros a Ha. apply store_bytes_outside. lia.
  - lia.
  - cbn [InlineEncoder.decode].
    rewrite (string_decode_wire s Hs _ _ out Hd). reflexivity.
  - reflexivity.
Qed.

Lemma string_encoding_round_trip_witness :
  let s := ["k"; "e"; "y"]%byte in
  let r := InlineEncoder.encode TString (VString s) 100 zero_memory in
  load_bytes (fst r) 100 5 = ["003"; "000"; "k"; "e"; "y"]%byte
  /\ snd r = 105
  /\ InlineEncoder.decode TString (fst r) 100 (Some (VString []))
     = {| end_ptr := 105; output := Some (VString s); allocated := [] |}.
Proof.
  destruct (string_encoding_round_trip ["k"; "e"; "y"]%byte 100 zero_memory
              (VString [])) as (_ & _ & _ & _ & E & D & _); [reflexivity|].
  split; [reflexivity|]. split; [exact E|]. exact D.
Defined.

(** ** Reading a length from encoded bytes *)

(** Whatever the field encoders and the pack, the tuple helper's
    length-from-bytes is zero: the field length [flen] only moves the
    pointer and is never added. *)
Lemma tuple_length_from_bytes
    (FieldEnc : ty -> memory -> N -> N) (rest : list ty) :
  forall n m ptr,
  TupleEncodingHelper.get_payload_length_ptr FieldEnc rest n m ptr = 0.
Proof.
  induction rest as [|T rest IH]; intros n m ptr; [reflexivity|].
  cbn [TupleEncodingHelper.get_payload_length_ptr]. apply IH.
Qed.

(** The scalar and the byte-string encoder do recover the span. *)
Lemma scalar_length_from_bytes (k : scalar_kind) (n : nat) (v : value)
    (dest : N) (m : memory) :
  InlineEncoder.get_payload_length_ptr (TScalar k n)
    (fst (InlineEncoder.encode (TScalar k n) v dest m)) dest
  = InlineEncoder.get_payload_length (TScalar k n) v.
Proof. reflexivity. Qed.

Lemma string_length_from_bytes (s : list byte) (dest : N) (m : memory) :
  N.of_nat (length s) < 2 ^ 16 ->
  InlineEncoder.get_payload_length_ptr TString
    (fst (InlineEncoder.encode TString (VString s) dest m)) dest
  = InlineEncoder.get_payload_length TString (VString s).
Proof.
  intros Hs.
  cbn [InlineEncoder.get_payload_length_ptr InlineEncoder.encode
       InlineEncoder.get_payload_length].
  unfold InlineString.get_payload_length_ptr, InlineString.sizeof_LengthType.
  rewrite (string_length_field s dest m Hs).
  unfold InlineString.get_payload_length, InlineString.sizeof_LengthType.
  cbn [string_of]. lia.
Qed.

(** C2: the length read from the bytes of an encoded tuple is not its span.
    For the one-field tuple [std::tuple<uint32_t>{5}] the encoder writes
    four bytes and [get_payload_length] of the value is 4, while
    [get_payload_length] of the encoded bytes is 0. *)
Theorem tuple_length_from_bytes_is_zero :
  let T := TTuple [TScalar Unsigned 4] in
  let v := VTuple [VScalar 5] in
  let r := InlineEncoder.encode T v 0 zero_memory in
  has_type T v = true
  /\ snd r = 4
  /\ InlineEncoder.get_payload_length T v = 4
  /\ InlineEncoder.get_payload_length_ptr T (fst r) 0 = 0.
Proof. repeat split. Qed.

(** ** The compound encoder *)

(** C6: when the key type is the PMNK type, the PMNK is the key itself and
    the payload holds no key: the key encoder in use is the dummy encoder,
    the payload length of a pair is the value encoder's length of the value
    alone, [encode] leaves in memory exactly what the value encoder writes
    at [dest], and the length read from the bytes is the value's. *)
Theorem key_in_pmnk_payload_is_value (indeterminate : nat -> byte)
    (KeyEncoder ValueEncoder : Encoder.t) (key value : value)
    (dest : N) (m : memory) :
  let K := Encoder.Type_ KeyEncoder in
  get_pmnk indeterminate K K key = Some key
  /\ CompoundEncoder.ActualKeyEncoder KeyEncoder K = DummyEncoder.policy K
  /\ CompoundEncoder.get_payload_length KeyEncoder ValueEncoder K key value
     = Encoder.get_payload_length ValueEncoder value
  /\ CompoundEncoder.encode KeyEncoder ValueEncoder K key value dest m
     = fst (Encoder.encode ValueEncoder value dest m)
  /\ CompoundEncoder.get_payload_length_ptr KeyEncoder ValueEncoder K m dest
     = Encoder.get_payload_length_ptr ValueEncoder m dest.
Proof.
  intros K.
  assert (A : CompoundEncoder.ActualKeyEncoder KeyEncoder K
              = DummyEncoder.policy K).
  { unfold CompoundEncoder.ActualKeyEncoder, CompoundEncoder.K.
    fold K. now rewrite is_same_refl. }
  split; [|split; [exact A|split; [|split]]].
  - unfold get_pmnk. now rewrite is_same_refl.
  - unfold CompoundEncoder.get_payload_length. rewrite A. reflexivity.
  - unfold CompoundEncoder.encode. rewrite A. reflexivity.
  - unfold CompoundEncoder.get_payload_length_ptr. rewrite A.
    cbn. now rewrite N.add_0_r.
Qed.

(** C9: when the key type is the PMNK type and a key output is requested,
    [CompoundEncoder::decode] needs a non-null [pmnk].  With a null [pmnk]
    (the default argument) the call does not return: the assertion fails
    where [assert<1>] is compiled in, and the null pointer is dereferenced
    where it is not.  With a non-null [pmnk] the key handed back is [*pmnk],
    whatever the payload bytes are, and the value is decoded from the start
    of the payload.  Without a key output no [pmnk] is needed. *)
Theorem compound_decode_needs_pmnk (assert_enabled : nat -> bool)
    (KeyEncoder ValueEncoder : Encoder.t) (m : memory) (src : N)
    (key_object pmnk_value : value) (value_p : option value) :
  let K := Encoder.Type_ KeyEncoder in
  let decode := CompoundEncoder.decode assert_enabled KeyEncoder ValueEncoder K in
  let vd := Encoder.decode ValueEncoder m src value_p in
  decode m src (Some key_object) value_p None
  = (if assert_enabled 1%nat
     then AssertionFailed "PMNK required to decode this key"
     else NullDereference)
  /\ decode m src (Some key_object) value_p (Some pmnk_value)
     = Returned {| key_out := Some pmnk_value; value_out := output vd;
                   pair_allocated := allocated vd |}
  /\ decode m src None value_p None
     = Returned {| key_out := None; value_out := output vd;
                   pair_allocated := allocated vd |}.
Proof.
  intros K decode vd. subst decode.
  assert (A : CompoundEncoder.ActualKeyEncoder KeyEncoder K
              = DummyEncoder.policy K).
  { unfold CompoundEncoder.ActualKeyEncoder, CompoundEncoder.K.
    fold K. now rewrite is_same_refl. }
  unfold CompoundEncoder.decode. rewrite A. unfold CompoundEncoder.K.
  fold K. rewrite is_same_refl. cbn. fold vd. repeat split.
Qed.

(** When the key type differs from the PMNK type the key comes from the
    payload and a null [pmnk] is harmless. *)
Lemma compound_decode_without_pmnk (assert_enabled : nat -> bool)
    (KeyEncoder ValueEncoder : Encoder.t) (PMNK_Type : ty) (m : memory)
    (src : N) (key_p value_p : option value) :
  is_same (Encoder.Type_ KeyEncoder) PMNK_Type = false ->
  let kd := Encoder.decode KeyEncoder m src key_p in
  let vd := Encoder.decode ValueEncoder m (end_ptr kd) value_p in
  CompoundEncoder.decode assert_enabled KeyEncoder ValueEncoder PMNK_Type
    m src key_p value_p None
  = Returned {| key_out := output kd; value_out := output vd;
                pair_allocated := allocated kd ++ allocated vd |}.
Proof.
  intros Hne kd vd.
  unfold CompoundEncoder.decode, CompoundEncoder.ActualKeyEncoder,
    CompoundEncoder.K.
  rewrite Hne, andb_false_r. reflexivity.
Qed.

(** ** The tuple encoder *)

Lemma helper_length_sum (rest : list ty) :
  forall fs pre,
  forall2b has_type rest fs = true ->
  TupleEncodingHelper.get_payload_length InlineEncoder.get_payload_length
    rest (length pre) (VTuple (pre ++ fs))
  = sum_N (map_fields InlineEncoder.get_payload_length rest fs).
Proof.
  induction rest as [|T rest IH]; intros [|f fs] pre H; try discriminate.
  - reflexivity.
  - cbn [forall2b] in H. apply andb_prop in H as [_ Hfs].
    cbn [TupleEncodingHelper.get_payload_length map_fields sum_N fold_right].
    rewrite tuple_get_middle.
    rewrite (snoc_app pre f fs), (length_snoc pre f), (IH fs (pre ++ [f]) Hfs).
    unfold sum_N. lia.
Qed.

Lemma field_encodings_wire (Ts : list ty) (fs : list value) :
  forall2b has_type Ts fs = true ->
  map_fields encoding Ts fs = map_fields wire_format Ts fs.
Proof. intros H. apply map_fields_ext; [exact H|]. apply encoding_wire. Qed.

Lemma length_encoding (T : ty) (v : value) :
  has_type T v = true ->
  InlineEncoder.get_payload_length T v = N.of_nat (length (encoding T v)).
Proof. intros H. rewrite (encoding_wire T v H). now apply length_wire. Qed.

(** Where memory holds the concatenated field encodings at [dest], field
    [i] sits right after the fields before it. *)
Lemma field_placement (Ts : list ty) :
  forall fs, forall2b has_type Ts fs = true ->
  forall i T v m dest,
  nth_error Ts i = Some T -> nth_error fs i = Some v ->
  load_bytes m dest (length (concat (map_fields encoding Ts fs)))
  = concat (map_fields encoding Ts fs) ->
  load_bytes m
    (dest + sum_N (firstn i (map_fields InlineEncoder.get_payload_length Ts fs)))
    (length (encoding T v))
  = encoding T v.
Proof.
  induction Ts as [|T0 Ts IH]; intros [|v0 fs] H i T v m dest HT Hv Hm;
    try discriminate; [destruct i; discriminate|].
  cbn [forall2b] in H. apply andb_prop in H as [H0 Hfs].
  cbn [map_fields concat] in Hm. apply load_bytes_app_eq in Hm as [Hm0 Hm1].
  destruct i as [|i]; cbn [nth_error] in HT, Hv.
  - injection HT as <-. injection Hv as <-.
    cbn [firstn sum_N fold_right]. now rewrite N.add_0_r.
  - cbn [map_fields firstn sum_N fold_right]. fold (sum_N
      (firstn i (map_fields InlineEncoder.get_payload_length Ts fs))).
    rewrite (length_encoding T0 v0 H0), N.add_assoc.
    now apply IH.
Qed.

(** C7 (as amended): tuple encoding is the in-order concatenation of the
    fields' encodings.  For every tuple value, [encode] leaves at [dest] the
    encoding of field 0, then that of field 1, and so on (field [i] at
    [dest] plus the lengths of the fields before it), changes nothing else,
    and returns [dest] advanced by the total; the payload length is
    the sum of the fields' payload lengths (0 for the empty tuple); every
    field encoder writes the same bytes wherever it is run.  When every byte
    string in the tuple is shorter than 2^16, [decode] with a non-null
    output gives back every field and returns the pointer [encode]
    returned. *)
Theorem tuple_encoding_concatenation (Ts : list ty) (fs : list value)
    (dest : N) (m : memory) :
  has_type (TTuple Ts) (VTuple fs) = true ->
  let r := InlineEncoder.encode (TTuple Ts) (VTuple fs) dest m in
  let bytes := concat (map_fields encoding Ts fs) in
  fst r = store_bytes m dest bytes
  /\ load_bytes (fst r) dest (length bytes) = bytes
  /\ (forall i T v, nth_error Ts i = Some T -> nth_error fs i = Some v ->
      load_bytes (fst r)
        (dest + sum_N (firstn i
                         (map_fields InlineEncoder.get_payload_length Ts fs)))
        (length (encoding T v))
      = encoding T v)
  /\ snd r = dest + sum_N (map_fields InlineEncoder.get_payload_length Ts fs)
  /\ InlineEncoder.get_payload_length (TTuple Ts) (VTuple fs)
     = sum_N (map_fields InlineEncoder.get_payload_length Ts fs)
  /\ (forall T v d m', has_type T v = true ->
      InlineEncoder.encode T v d m'
      = (store_bytes m' d (encoding T v),
         d + InlineEncoder.get_payload_length T v))
  /\ (forall out, short_strings (VTuple fs) = true ->
      has_type (TTuple Ts) out = true ->
      InlineEncoder.decode (TTuple Ts) (fst r) dest (Some out)
      = {| end_ptr := snd r; output := Some (VTuple fs); allocated := [] |}).
Proof.
  intros Hv r bytes.
  assert (Hfs : forall2b has_type Ts fs = true) by exact Hv.
  assert (Hb : bytes = wire_format (TTuple Ts) (VTuple fs)).
  { subst bytes. cbn [wire_format]. now rewrite field_encodings_wire. }
  assert (Hr : r = (store_bytes m dest bytes, dest + N.of_nat (length bytes))).
  { subst r. rewrite Hb. now apply encode_wire. }
  assert (Hl : InlineEncoder.get_payload_length (TTuple Ts) (VTuple fs)
               = sum_N (map_fields InlineEncoder.get_payload_length Ts fs)).
  { cbn [InlineEncoder.get_payload_length].
    apply (helper_length_sum Ts fs [] Hfs). }
  split; [|split; [|split; [|split; [|split; [|split]]]]].
  - now rewrite Hr.
  - rewrite Hr. apply load_store_bytes.
  - intros i T v HT Hf. apply (field_placement Ts fs Hfs i T v _ _ HT Hf).
    rewrite Hr. apply load_store_bytes.
  - rewrite Hr. cbn [snd]. rewrite <- Hl, Hb. f_equal.
    symmetry. now apply length_wire.
  - exact Hl.
  - intros T v d m' HT.
    rewrite (encode_wire T v HT), (encoding_wire T v HT).
    now rewrite (length_wire T v HT).
  - intros out Hs Hout. subst r. now apply decode_encode.
Qed.

Lemma tuple_encoding_concatenation_witness :
  let Ts := [TScalar Unsigned 4; TString; TTuple [TScalar Unsigned 1]] in
  let fs := [VScalar 5; VString ["h"; "i"]%byte; VTuple [VScalar 7]] in
  let r := InlineEncoder.encode (TTuple Ts) (VTuple fs) 10 zero_memory in
  load_bytes (fst r) 10 9
  = ["005"; "000"; "000"; "000"; "002"; "000"; "h"; "i"; "007"]%byte
  /\ snd r = 19
  /\ InlineEncoder.decode (TTuple Ts) (fst r) 10 (Some (value_init (TTuple Ts)))
     = {| end_ptr := 19; output := Some (VTuple fs); allocated := [] |}.
Proof.
  destruct (tuple_encoding_concatenation
              [TScalar Unsigned 4; TString; TTuple [TScalar Unsigned 1]]
              [VScalar 5; VString ["h"; "i"]%byte; VTuple [VScalar 7]]
              10 zero_memory) as (_ & L & _ & E & _ & _ & D); [reflexivity|].
  split; [exact L|]. split; [exact E|].
  apply D; reflexivity.
Defined.

(** C7 as first stated fails for a tuple holding a byte string of 2^16
    bytes: the length field wraps to 0 and [decode] gives back the empty
    string. *)
Lemma tuple_long_string_counterexample :
  let T := TTuple [TString] in
  let v := VTuple [VString (repeat "a"%byte 65536)] in
  let r := InlineEncoder.encode T v 0 zero_memory in
  has_type T v = true
  /\ output (InlineEncoder.decode T (fst r) 0 (Some (value_init T)))
     = Some (VTuple [VString []])
  /\ VTuple [VString []] <> v.
Proof.
  split; [reflexivity|]. split; [vm_compute; reflexivity|].
  intros H. apply (f_equal short_strings) in H. vm_compute in H. discriminate.
Qed.

(** ** Decoding without an output *)

(** C8 (as amended): skipping the output of [decode] is permitted.  For
    every type and every memory, [decode] with a null output returns the
    pointer it returns with a non-null one and hands nothing back.  On the
    bytes [encode] wrote for a value whose byte strings are all shorter than
    2^16, that pointer is the end of the encoded instance.  For a tuple
    with at least one field the null-output call obtains one fresh
    value-initialised tuple, decodes into it exactly as into a caller's
    tuple and leaves it behind unowned (on encoded bytes it holds the
    decoded fields); for scalars, byte strings and the empty tuple nothing
    is allocated. *)
Theorem decode_skipping_output (T : ty) (m : memory) (src : N) (out : value) :
  end_ptr (InlineEncoder.decode T m src None)
  = end_ptr (InlineEncoder.decode T m src (Some out))
  /\ output (InlineEncoder.decode T m src None) = None
  /\ match T with
     | TTuple (_ :: _) =>
         exists obj,
         output (InlineEncoder.decode T m src (Some (value_init T))) = Some obj
         /\ allocated (InlineEncoder.decode T m src None)
            = allocated (InlineEncoder.decode T m src (Some (value_init T)))
              ++ [obj]
     | _ => allocated (InlineEncoder.decode T m src None) = []
     end
  /\ (forall v dest m0,
      has_type T v = true -> short_strings v = true ->
      let r := InlineEncoder.encode T v dest m0 in
      end_ptr (InlineEncoder.decode T (fst r) dest None) = snd r
      /\ allocated (InlineEncoder.decode T (fst r) dest None)
         = match T with TTuple (_ :: _) => [v] | _ => [] end).
Proof.
  split; [apply decode_end|].
  assert (Hnull : output (InlineEncoder.decode T m src None) = None
    /\ match T with
       | TTuple (_ :: _) =>
           exists obj,
           output (InlineEncoder.decode T m src (Some (value_init T))) = Some obj
           /\ allocated (InlineEncoder.decode T m src None)
              = allocated (InlineEncoder.decode T m src (Some (value_init T)))
                ++ [obj]
       | _ => allocated (InlineEncoder.decode T m src None) = []
       end).
  { destruct T as [k n| |[|T0 Ts]]; try (split; reflexivity).
    cbn [InlineEncoder.decode].
    destruct (helper_decode_null (T0 :: Ts) T0 Ts 0 m src) as (obj & Ho & E).
    rewrite E. cbn [output allocated]. split; [reflexivity|].
    exists obj. split; [exact Ho|reflexivity]. }
  destruct Hnull as [Hn Ha]. split; [exact Hn|]. split; [exact Ha|].
  intros v dest m0 Hv Hs r.
  pose proof (decode_encode T v (value_init T) dest m0 Hv Hs
                (has_type_value_init T)) as D. fold r in D.
  split.
  - rewrite (decode_end T (fst r) dest None (Some (value_init T))), D.
    reflexivity.
  - destruct T as [k n| |[|T0 Ts]]; try reflexivity.
    cbn [InlineEncoder.decode] in D |- *.
    destruct (helper_decode_null (T0 :: Ts) T0 Ts 0 (fst r) dest)
      as (obj & Ho & E).
    rewrite E. cbn [allocated]. rewrite D in Ho |- *.
    cbn [output allocated app] in Ho |- *. now injection Ho as ->.
Qed.

Lemma decode_skipping_output_witness :
  let T := TTuple [TScalar Unsigned 2; TString] in
  let v := VTuple [VScalar 258; VString ["o"; "k"]%byte] in
  let r := InlineEncoder.encode T v 0 zero_memory in
  end_ptr (InlineEncoder.decode T (fst r) 0 None) = 6
  /\ allocated (InlineEncoder.decode T (fst r) 0 None) = [v].
Proof.
  destruct (decode_skipping_output (TTuple [TScalar Unsigned 2; TString])
              zero_memory 0 (VTuple [])) as (_ & _ & _ & H).
  apply (H (VTuple [VScalar 258; VString ["o"; "k"]%byte]) 0 zero_memory);
    reflexivity.
Defined.

(** C8 as first stated fails in two places: the empty tuple is decoded
    without any allocation, and for a byte string of 2^16 bytes the pointer
    returned (with or without output) is not past the encoded instance. *)
Lemma decode_skipping_counterexample :
  InlineEncoder.decode (TTuple []) zero_memory 0 None
  = {| end_ptr := 0; output := None; allocated := [] |}
  /\ let v := VString (repeat "a"%byte 65536) in
     let r := InlineEncoder.encode TString v 0 zero_memory in
     snd r = 65538
     /\ end_ptr (InlineEncoder.decode TString (fst r) 0 None) = 2
     /\ end_ptr (InlineEncoder.decode TString (fst r) 0 (Some (VString []))) = 2.
Proof.
  split; [reflexivity|]. cbv zeta. repeat split; vm_compute; reflexivity.
Qed.

(** ** The scenarios of the specification, on the encoders *)

(** S4: with a 2-byte PMNK, 8-byte keys sharing their two leading bytes
    share the PMNK, so the full keys decide. *)
Example pmnk_collision :
  map (PoormanPrefixing (fun _ => "000"%byte) 8 2)
    [281474976710657; 281474976710658; 281474976710659]
  = [1; 1; 1].
Proof. reflexivity. Qed.

(** S5: "apple" < "apricot" < "banana", and so are their 4-byte PMNKs. *)
Example pmnk_of_fruit :
  map (PoormanPrefixing_string (fun _ => "000"%byte) 4)
    [["a"; "p"; "p"; "l"; "e"]; ["a"; "p"; "r"; "i"; "c"; "o"; "t"];
     ["b"; "a"; "n"; "a"; "n"; "a"]]%byte
  = [1634758764; 1634759273; 1650552417].
Proof. reflexivity. Qed.

(** A key shorter than the PMNK is padded with zeros on the right. *)
Example pmnk_of_short_key :
  PoormanPrefixing_string (fun _ => "255"%byte) 4 ["a"; "b"]%byte
  = 1633812480.
Proof. reflexivity. Qed.

(** A pair with a [uint32_t] key that is its own PMNK: the payload is the
    length-prefixed value only, and decoding takes the key from the PMNK. *)
Example compound_pair :
  let key := AssignmentEncoder.policy Unsigned 4 in
  let val := InlineEncoder.policy TString in
  let m := CompoundEncoder.encode key val (TScalar Unsigned 4)
             (VScalar 7) (VString ["x"]%byte) 0 zero_memory in
  load_bytes m 0 3 = ["001"; "000"; "x"]%byte
  /\ CompoundEncoder.get_payload_length_ptr key val (TScalar Unsigned 4) m 0 = 3
  /\ CompoundEncoder.decode (fun _ => true) key val (TScalar Unsigned 4) m 0
       (Some (VScalar 0)) (Some (VString [])) (Some (VScalar 7))
     = Returned {| key_out := Some (VScalar 7);
                   value_out := Some (VString ["x"]%byte);
                   pair_allocated := [] |}.
Proof. repeat split. Qed.

(** * Further properties of the encoders *)

(** ** Writing stays inside the payload *)

Lemma load_bytes_shifted (n : nat) :
  forall m m' a a',
  (forall i, i < N.of_nat n -> m (a + i) = m' (a' + i)) ->
  load_bytes m a n = load_bytes m' a' n.
Proof.
  induction n as [|n IH]; intros m m' a a' H; [reflexivity|].
  cbn [load_bytes]. f_equal.
  - specialize (H 0). rewrite !N.add_0_r in H. apply H. lia.
  - apply IH. intros i Hi.
    replace (a + 1 + i) with (a + (1 + i)) by lia.
    replace (a' + 1 + i) with (a' + (1 + i)) by lia.
    apply H. lia.
Qed.

Lemma load_bytes_firstn (bs : list byte) (m : memory) (a : N) (k : nat) :
  load_bytes m a (length bs) = bs -> (k <= length bs)%nat ->
  load_bytes m a k = firstn k bs.
Proof.
  intros H Hk.
  rewrite <- (firstn_skipn k bs) in H.
  apply load_bytes_app_eq in H as [H _].
  now rewrite length_firstn, Nat.min_l in H by exact Hk.
Qed.

(** X1: the assignment encoder round-trips every value of a scalar type:
    [encode] writes the [sizeof(T)] bytes of the value at [dest], changes
    nothing else and returns [dest + sizeof(T)]; [decode] of those bytes
    gives the value back with the same pointer and allocates nothing. *)
Theorem assignment_round_trip (n : nat) (x : N) (dest : N) (m : memory)
    (out : value) :
  x < 256 ^ N.of_nat n ->
  let r := AssignmentEncoder.encode n (VScalar x) dest m in
  snd r = dest + AssignmentEncoder.get_payload_length n (VScalar x)
  /\ load_bytes (fst r) dest n = object_repr n x
  /\ (forall a, a < dest \/ snd r <= a -> fst r a = m a)
  /\ AssignmentEncoder.decode n (fst r) dest (Some out)
     = {| end_ptr := snd r; output := Some (VScalar x); allocated := [] |}.
Proof.
  intros Hx r. subst r. unfold AssignmentEncoder.encode, store_scalar.
  cbn [fst snd scalar_of].
  pose proof (load_store_bytes (object_repr n x) m dest) as L.
  rewrite length_object_repr in L.
  split; [reflexivity|]. split; [exact L|]. split.
  - intros a Ha. apply store_bytes_outside.
    rewrite length_object_repr. exact Ha.
  - unfold AssignmentEncoder.decode, load_scalar. rewrite L.
    now rewrite object_value_repr_small.
Qed.

Lemma assignment_round_trip_witness :
  let r := AssignmentEncoder.encode 4 (VScalar 305419896) 8 zero_memory in
  load_bytes (fst r) 8 4 = ["x"; "V"; "4"; "018"]%byte
  /\ AssignmentEncoder.decode 4 (fst r) 8 (Some (VScalar 0))
     = {| end_ptr := 12; output := Some (VScalar 305419896); allocated := [] |}.
Proof.
  destruct (assignment_round_trip 4 305419896 8 zero_memory (VScalar 0))
    as (_ & L & _ & D); [reflexivity|].
  split; [exact L | exact D].
Defined.

(** X2: for every type and every value of it, [encode] returns [dest]
    advanced by exactly [get_payload_length(value)] and changes no byte
    outside [dest .. dest + get_payload_length(value)). *)
Theorem encode_stays_in_span (T : ty) (v : value) (dest : N) (m : memory) :
  has_type T v = true ->
  let r := InlineEncoder.encode T v dest m in
  snd r = dest + InlineEncoder.get_payload_length T v
  /\ (forall a, a < dest \/ dest + InlineEncoder.get_payload_length T v <= a ->
      fst r a = m a).
Proof.
  intros Hv r. subst r.
  rewrite (encode_wire T v Hv), (length_wire T v Hv). cbn [fst snd].
  split; [reflexivity|].
  intros a Ha. now apply store_bytes_outside.
Qed.

Lemma encode_stays_in_span_witness :
  let T := TTuple [TString; TScalar Signed 2] in
  let v := VTuple [VString ["a"; "b"; "c"]%byte; VScalar 65535] in
  let r := InlineEncoder.encode T v 4 zero_memory in
  snd r = 11 /\ fst r 3 = "000"%byte /\ fst r 11 = "000"%byte.
Proof.
  destruct (encode_stays_in_span (TTuple [TString; TScalar Signed 2])
              (VTuple [VString ["a"; "b"; "c"]%byte; VScalar 65535])
              4 zero_memory) as (E & F); [reflexivity|].
  split; [exact E|].
  split; apply F; [left | right]; reflexivity.
Defined.

(** X3: the length field of a byte string wraps at 2^16.  For a string of
    any length [n], the span read back from the encoded bytes is
    [2 + n mod 2^16], and [decode] returns the first [n mod 2^16] bytes of
    the string and the pointer [dest + 2 + n mod 2^16], although [encode]
    wrote all [n] bytes and returned [dest + 2 + n]. *)
Theorem string_length_wraps (s : list byte) (dest : N) (m : memory)
    (out : value) :
  let r := InlineEncoder.encode TString (VString s) dest m in
  let n := N.of_nat (length s) mod 2 ^ 16 in
  snd r = dest + 2 + N.of_nat (length s)
  /\ load_bytes (fst r) (dest + 2) (length s) = s
  /\ InlineEncoder.get_payload_length_ptr TString (fst r) dest = n + 2
  /\ InlineEncoder.decode TString (fst r) dest (Some out)
     = {| end_ptr := dest + 2 + n;
          output := Some (VString (firstn (N.to_nat n) s));
          allocated := [] |}.
Proof.
  intros r n. subst r.
  cbn [InlineEncoder.encode InlineEncoder.get_payload_length_ptr
       InlineEncoder.decode].
  rewrite string_encode_wire. cbn [fst snd wire_format].
  pose proof (load_store_bytes (object_repr 2 (N.of_nat (length s)) ++ s) m dest)
    as H.
  apply load_bytes_app_eq in H as [H1 H2]. rewrite length_object_repr in H1, H2.
  assert (L : load_scalar
                (store_bytes m dest (object_repr 2 (N.of_nat (length s)) ++ s))
                dest 2 = n).
  { unfold load_scalar. rewrite H1. apply object_value_repr. }
  assert (Hn : (N.to_nat n <= length s)%nat).
  { subst n. pose proof (N.Div0.mod_le (N.of_nat (length s)) (2 ^ 16)). lia. }
  split; [|split; [exact H2|split]].
  - rewrite length_app, length_object_repr. lia.
  - unfold InlineString.get_payload_length_ptr, InlineString.sizeof_LengthType.
    now rewrite L.
  - unfold InlineString.decode, InlineString.sizeof_LengthType. rewrite L.
    now rewrite (load_bytes_firstn s _ _ _ H2 Hn).
Qed.

(** ** Decoding arbitrary bytes *)

Lemma helper_decode_no_allocation (rest : list ty) :
  list_all ty
    (fun T => forall m src out,
       allocated (InlineEncoder.decode T m src (Some out)) = []) rest ->
  forall Ts n m src obj,
  allocated
    (TupleEncodingHelper.decode InlineEncoder.decode Ts rest n m src (Some obj))
  = [].
Proof.
  induction 1 as [|T HT rest _ IH]; intros Ts n m src obj; [reflexivity|].
  cbn [TupleEncodingHelper.decode allocated].
  now rewrite HT, IH.
Qed.

Lemma decode_no_allocation (T : ty) : forall m src out,
  allocated (InlineEncoder.decode T m src (Some out)) = [].
Proof.
  induction T as [k n| |Ts IH]; intros m src out; try reflexivity.
  cbn [InlineEncoder.decode]. now apply helper_decode_no_allocation.
Qed.

Lemma decode_fills_output (T : ty) (m : memory) (src : N) (out : value) :
  exists v, output (InlineEncoder.decode T m src (Some out)) = Some v.
Proof.
  destruct T as [k n| |[|T0 Ts]]; cbn; eexists; reflexivity.
Qed.

(** X4: whatever the bytes in memory, [decode] with a non-null output fills
    the output and never allocates; with a null output it allocates exactly
    one object when the type is a tuple with at least one field, and none
    otherwise. *)
Theorem decode_allocations (T : ty) (m : memory) (src : N) (out : value) :
  allocated (InlineEncoder.decode T m src (Some out)) = []
  /\ (exists v, output (InlineEncoder.decode T m src (Some out)) = Some v)
  /\ length (allocated (InlineEncoder.decode T m src None))
     = match T with TTuple (_ :: _) => 1%nat | _ => 0%nat end.
Proof.
  split; [apply decode_no_allocation|]. split; [apply decode_fills_output|].
  destruct T as [k n| |[|T0 Ts]]; try reflexivity.
  cbn [InlineEncoder.decode].
  destruct (helper_decode_null (T0 :: Ts) T0 Ts 0 m src) as (obj & _ & E).
  rewrite E. cbn [allocated].
  rewrite (helper_decode_no_allocation (T0 :: Ts)).
  - reflexivity.
  - clear. assert (A : forall l : list ty,
      list_all ty (fun T => forall m src out,
        allocated (InlineEncoder.decode T m src (Some out)) = []) l).
    { induction l; constructor; auto using decode_no_allocation. }
    apply A.
Qed.

(** Decoding consumes a definite number of bytes and looks at no others:
    the same bytes at another address, in another memory, decode alike. *)
Lemma helper_decode_relocates (rest : list ty) :
  list_all ty
    (fun T => forall m src o, exists n,
       end_ptr (InlineEncoder.decode T m src o) = src + n
       /\ forall m' src',
          (forall i, i < n -> m (src + i) = m' (src' + i)) ->
          InlineEncoder.decode T m' src' o
          = {| end_ptr := src' + n;
               output := output (InlineEncoder.decode T m src o);
               allocated := allocated (InlineEncoder.decode T m src o) |})
    rest ->
  forall Ts k m src t, exists n,
  end_ptr (TupleEncodingHelper.decode InlineEncoder.decode Ts rest k m src t)
  = src + n
  /\ forall m' src',
     (forall i, i < n -> m (src + i) = m' (src' + i)) ->
     TupleEncodingHelper.decode InlineEncoder.decode Ts rest k m' src' t
     = {| end_ptr := src' + n;
          output := output (TupleEncodingHelper.decode InlineEncoder.decode
                              Ts rest k m src t);
          allocated := allocated (TupleEncodingHelper.decode
                                    InlineEncoder.decode Ts rest k m src t) |}.
Proof.
  induction 1 as [|T HT rest _ IH]; intros Ts k m src t.
  - exists 0. cbn. split; [now rewrite N.add_0_r|].
    intros m' src' _. now rewrite N.add_0_r.
  - assert (Step : forall obj, exists n,
      let field := InlineEncoder.decode T m src (Some (tuple_get k obj)) in
      let obj1 := match output field with
                  | Some f => tuple_set k obj f
                  | None => obj
                  end in
      let tail := TupleEncodingHelper.decode InlineEncoder.decode Ts rest
                    (S k) m (end_ptr field) (Some obj1) in
      end_ptr tail = src + n
      /\ forall m' src',
         (forall i, i < n -> m (src + i) = m' (src' + i)) ->
         InlineEncoder.decode T m' src' (Some (tuple_get k obj))
         = {| end_ptr := src' + (end_ptr field - src);
              output := output field; allocated := allocated field |}
         /\ TupleEncodingHelper.decode InlineEncoder.decode Ts rest (S k) m'
              (src' + (end_ptr field - src)) (Some obj1)
            = {| end_ptr := src' + n; output := output tail;
                 allocated := allocated tail |}).
    { intros obj.
      destruct (HT m src (Some (tuple_get k obj))) as (n1 & E1 & R1).
      set (field := InlineEncoder.decode T m src (Some (tuple_get k obj))) in *.
      set (obj1 := match output field with
                   | Some f => tuple_set k obj f
                   | None => obj
                   end).
      destruct (IH Ts (S k) m (end_ptr field) (Some obj1)) as (n2 & E2 & R2).
      exists (n1 + n2). cbv zeta. fold field. fold obj1.
      split; [rewrite E2, E1; lia|].
      intros m' src' H.
      replace (end_ptr field - src) with n1 by lia.
      split.
      - apply R1. intros i Hi. apply H. lia.
      - rewrite (R2 m' (src' + n1)).
        + f_equal. lia.
        + intros i Hi. rewrite E1, <- !N.add_assoc. apply H. lia. }
    destruct t as [obj|].
    + destruct (Step obj) as (n & E & R). exists n.
      cbn [TupleEncodingHelper.decode end_ptr output allocated].
      split; [exact E|].
      intros m' src' H. destruct (R m' src' H) as [Rf Rt].
      rewrite Rf. cbn [end_ptr output allocated]. rewrite Rt.
      reflexivity.
    + destruct (Step (value_init (TTuple Ts))) as (n & E & R). exists n.
      cbn [TupleEncodingHelper.decode end_ptr output allocated].
      split; [exact E|].
      intros m' src' H. destruct (R m' src' H) as [Rf Rt].
      rewrite Rf. cbn [end_ptr output allocated]. rewrite Rt.
      reflexivity.
Qed.

(** X5: [decode] is relocatable.  On any memory it consumes a definite
    number [n] of bytes from [src] on, and it looks at no other byte: if a
    memory holds the same [n] bytes at [src'], decoding there gives the same
    output and allocations and returns [src' + n]. *)
Theorem decode_relocatable (T : ty) (m : memory) (src : N) (o : option value) :
  exists n,
  end_ptr (InlineEncoder.decode T m src o) = src + n
  /\ forall m' src',
     (forall i, i < n -> m (src + i) = m' (src' + i)) ->
     InlineEncoder.decode T m' src' o
     = {| end_ptr := src' + n;
          output := output (InlineEncoder.decode T m src o);
          allocated := allocated (InlineEncoder.decode T m src o) |}.
Proof.
  revert m src o.
  induction T as [k n| |Ts IH]; intros m src o.
  - exists (N.of_nat n). split; [reflexivity|].
    intros m' src' H. cbn [InlineEncoder.decode].
    unfold AssignmentEncoder.decode, load_scalar. cbn [output allocated].
    now rewrite (load_bytes_shifted n m' m src' src)
      by (intros i Hi; symmetry; now apply H).
  - exists (2 + load_scalar m src 2). split.
    { cbn [InlineEncoder.decode].
      unfold InlineString.decode, InlineString.sizeof_LengthType.
      cbn [end_ptr]. change (N.of_nat 2) with 2. lia. }
    intros m' src' H. cbn [InlineEncoder.decode].
    unfold InlineString.decode, InlineString.sizeof_LengthType.
    cbn [output allocated].
    assert (L : load_scalar m' src' 2 = load_scalar m src 2).
    { unfold load_scalar. f_equal. apply load_bytes_shifted.
      intros i Hi. symmetry. apply H. change (N.of_nat 2) with 2 in Hi. lia. }
    rewrite L. f_equal; [change (N.of_nat 2) with 2; lia|].
    destruct o; [|reflexivity]. do 2 f_equal.
    apply load_bytes_shifted. intros i Hi.
    rewrite <- !N.add_assoc. symmetry. apply H.
    change (N.of_nat 2) with 2. lia.
  - cbn [InlineEncoder.decode]. now apply helper_decode_relocates.
Qed.

Lemma decode_relocatable_witness :
  let T := TTuple [TString; TScalar Unsigned 1] in
  let m := store_bytes zero_memory 10 ["002"; "000"; "h"; "i"; "007"]%byte in
  let m' := store_bytes (fun _ => "255"%byte) 500
              ["002"; "000"; "h"; "i"; "007"]%byte in
  InlineEncoder.decode T m' 500 None
  = {| end_ptr := 505; output := None;
       allocated := [VTuple [VString ["h"; "i"]%byte; VScalar 7]] |}.
Proof.
  cbv zeta.
  destruct (decode_relocatable (TTuple [TString; TScalar Unsigned 1])
              (store_bytes zero_memory 10 ["002"; "000"; "h"; "i"; "007"]%byte)
              10 None) as (n & E & R).
  assert (E15 : end_ptr
            (InlineEncoder.decode (TTuple [TString; TScalar Unsigned 1])
               (store_bytes zero_memory 10
                  ["002"; "000"; "h"; "i"; "007"]%byte) 10 None) = 15)
    by reflexivity.
  assert (Hn : n = 5) by lia. subst n.
  rewrite (R (store_bytes (fun _ => "255"%byte) 500
                ["002"; "000"; "h"; "i"; "007"]%byte) 500).
  - reflexivity.
  - intros i Hi.
    assert (C : i = 0 \/ i = 1 \/ i = 2 \/ i = 3 \/ i = 4) by lia.
    destruct C as [-> | [-> | [-> | [-> | ->]]]]; reflexivity.
Defined.

(** ** More on PMNK extraction *)

(** X6: PMNK extraction never depends on the uninitialised bytes of its
    union: whatever automatic storage held before, [get_pmnk] gives the same
    answer, for every key type, PMNK type and key. *)
Theorem pmnk_ignores_uninitialized (g g' : nat -> byte) (K PMNK_Type : ty)
    (key : value) :
  get_pmnk g K PMNK_Type key = get_pmnk g' K PMNK_Type key.
Proof.
  unfold get_pmnk. destruct (is_same PMNK_Type K); [reflexivity|].
  destruct K as [kk k| |Ts], PMNK_Type as [kp p| |Ps]; try reflexivity.
  - destruct (Nat.leb_spec p k) as [Hp|]; [|reflexivity].
    now rewrite !PoormanPrefixing_big_endian.
  - now rewrite !PoormanPrefixing_string_padded.
Qed.

(** X7: when the key and the PMNK have the same size, the PMNK is the key's
    own bit pattern, whether the two types are the same ([NoPrefixing]) or
    differ ([PoormanPrefixing], whose two swaps cancel). *)
Theorem same_size_pmnk_is_key (g : nat -> byte) (kk kp : scalar_kind)
    (k : nat) (key : N) :
  key < 256 ^ N.of_nat k ->
  get_pmnk g (TScalar kk k) (TScalar kp k) (VScalar key) = Some (VScalar key).
Proof.
  intros Hkey. unfold get_pmnk.
  destruct (is_same (TScalar kp k) (TScalar kk k)); [reflexivity|].
  rewrite Nat.leb_refl. cbn [scalar_of].
  rewrite PoormanPrefixing_shift by (auto; lia).
  now rewrite Nat.sub_diag, N.pow_0_r, N.div_1_r.
Qed.

Lemma same_size_pmnk_is_key_witness :
  get_pmnk (fun _ => "255"%byte) (TScalar Signed 4) (TScalar Unsigned 4)
    (VScalar 4294967295) = Some (VScalar 4294967295).
Proof.
  apply (same_size_pmnk_is_key (fun _ => "255"%byte) Signed Unsigned 4
           4294967295).
  reflexivity.
Defined.

Lemma object_value_inj (a : list byte) : forall b,
  length a = length b -> object_value a = object_value b -> a = b.
Proof.
  intros b L E.
  rewrite <- (object_repr_value a), <- (object_repr_value b).
  now rewrite L, E.
Qed.

Lemma padded_prefix_zero_extended (p : nat) (s : list byte) :
  (length s < p)%nat ->
  padded_prefix p (s ++ ["000"%byte]) = padded_prefix p s.
Proof.
  intros H. unfold padded_prefix.
  rewrite !firstn_all2 by (rewrite ?length_app; cbn [length]; lia).
  rewrite length_app. cbn [length]. rewrite <- app_assoc. f_equal.
  replace (p - length s)%nat with (S (p - (length s + 1))) by lia.
  reflexivity.
Qed.

(** X8: two byte-string keys have the same PMNK exactly when their first
    [sizeof(PMNK)] bytes, zero-padded, coincide.  In particular a key
    shorter than the PMNK and the same key followed by a zero byte always
    collide, so a PMNK tie between different keys is possible. *)
Theorem string_pmnk_collisions (g : nat -> byte) (p : nat)
    (s1 s2 : list byte) :
  (PoormanPrefixing_string g p s1 = PoormanPrefixing_string g p s2
   <-> padded_prefix p s1 = padded_prefix p s2)
  /\ ((length s1 < p)%nat ->
      PoormanPrefixing_string g p (s1 ++ ["000"%byte])
      = PoormanPrefixing_string g p s1).
Proof.
  rewrite !PoormanPrefixing_string_padded. split; [split|].
  - unfold big_endian_value. intros E.
    apply object_value_inj in E.
    + rewrite <- (rev_involutive (padded_prefix p s1)), E.
      apply rev_involutive.
    + now rewrite !length_rev, !length_padded_prefix.
  - now intros ->.
  - intros H. now rewrite padded_prefix_zero_extended.
Qed.

Lemma string_pmnk_collisions_witness :
  PoormanPrefixing_string (fun _ => "255"%byte) 4 ["a"; "b"; "000"]%byte
  = PoormanPrefixing_string (fun _ => "255"%byte) 4 ["a"; "b"]%byte
  /\ PoormanPrefixing_string (fun _ => "255"%byte) 2 ["a"; "b"; "c"]%byte
     = PoormanPrefixing_string (fun _ => "255"%byte) 2 ["a"; "b"; "d"]%byte.
Proof.
  split.
  - apply (proj2 (string_pmnk_collisions (fun _ => "255"%byte) 4
                    ["a"; "b"]%byte [])). cbn. lia.
  - apply (proj1 (string_pmnk_collisions (fun _ => "255"%byte) 2
                    ["a"; "b"; "c"]%byte ["a"; "b"; "d"]%byte)).
    reflexivity.
Defined.

(** X9: [swap_endianness] turns a scalar into its big-endian reading: the
    result has the bytes of the argument in reverse order, is the number
    read from the argument's bytes most significant first, and is again a
    value of the type. *)
Theorem swap_endianness_big_endian (n : nat) (u : N) :
  object_repr n (swap_endianness n u) = rev (object_repr n u)
  /\ swap_endianness n u = big_endian_value (object_repr n u)
  /\ swap_endianness n u < 256 ^ N.of_nat n.
Proof.
  assert (E : swap_endianness n u = big_endian_value (object_repr n u)).
  { unfold swap_endianness, big_endian_value.
    rewrite <- (length_object_repr n u) at 1. now rewrite swap_bytes_rev. }
  split; [apply object_repr_swap|]. split; [exact E|].
  rewrite E. pose proof (big_endian_lt (object_repr n u)) as B.
  now rewrite length_object_repr in B.
Qed.

(** ** Key-value pairs *)


Lemma compound_actual_key_stored (KeyEncoder : Encoder.t) (PMNK_Type : ty) :
  is_same (Encoder.Type_ KeyEncoder) PMNK_Type = false ->
  CompoundEncoder.ActualKeyEncoder KeyEncoder PMNK_Type = KeyEncoder.
Proof.
  intros H. unfold CompoundEncoder.ActualKeyEncoder, CompoundEncoder.K.
  now rewrite H.
Qed.

Lemma compound_actual_key_dummy (KeyEncoder : Encoder.t) :
  CompoundEncoder.ActualKeyEncoder KeyEncoder (Encoder.Type_ KeyEncoder)
  = DummyEncoder.policy (Encoder.Type_ KeyEncoder).
Proof.
  unfold CompoundEncoder.ActualKeyEncoder, CompoundEncoder.K.
  now rewrite is_same_refl.
Qed.

(** With a stored key the payload is the key's encoding followed by the
    value's. *)
Lemma compound_encode_stored (K V PMNK_Type : ty) (k v : value)
    (dest : N) (m : memory) :
  is_same K PMNK_Type = false ->
  has_type K k = true -> has_type V v = true ->
  CompoundEncoder.encode (InlineEncoder.policy K) (InlineEncoder.policy V)
    PMNK_Type k v dest m
  = store_bytes m dest (wire_format K k ++ wire_format V v).
Proof.
  intros Hne Hk Hv. unfold CompoundEncoder.encode.
  rewrite compound_actual_key_stored by exact Hne.
  cbn [InlineEncoder.policy Encoder.encode].
  rewrite (encode_wire K k Hk), (encode_wire V v Hv). cbn [fst].
  now rewrite store_bytes_app.
Qed.

Lemma compound_encode_pmnk (KeyEncoder : Encoder.t) (V : ty) (key v : value)
    (dest : N) (m : memory) :
  has_type V v = true ->
  CompoundEncoder.encode KeyEncoder (InlineEncoder.policy V)
    (Encoder.Type_ KeyEncoder) key v dest m
  = store_bytes m dest (wire_format V v).
Proof.
  intros Hv. unfold CompoundEncoder.encode.
  rewrite compound_actual_key_dummy.
  cbn [DummyEncoder.policy Encoder.encode DummyEncoder.encode
       InlineEncoder.policy].
  now rewrite (encode_wire V v Hv).
Qed.





(** ** DefaultEncoder *)

Lemma is_same_eq (a : ty) : forall b, is_same a b = true -> a = b.
Proof.
  induction a as [k n| |fs IH]; intros [k' n'| |gs] H; try discriminate.
  - cbn [is_same] in H. apply andb_prop in H as [Hk Hn].
    apply Nat.eqb_eq in Hn as ->.
    destruct k, k'; try discriminate; reflexivity.
  - reflexivity.
  - cbn [is_same] in H. f_equal. revert gs H.
    induction IH as [|f Hf fs _ IHfs]; intros [|g gs] H; try discriminate.
    + reflexivity.
    + cbn [forall2b] in H. apply andb_prop in H as [H1 H2].
      now rewrite (Hf g H1), (IHfs gs H2).
Qed.

Lemma FieldEncoder_inline (T : plain_ty) :
  DefaultEncoder.FieldEncoder T = InlineEncoder.policy (ty_of T).
Proof. destruct T; reflexivity. Qed.

(** For a scalar or a short byte string the span can be read back from the
    encoded bytes. *)
Lemma plain_length_from_bytes (T : plain_ty) (v : value) (m : memory) (a : N) :
  has_type (ty_of T) v = true -> short_strings v = true ->
  load_bytes m a (length (wire_format (ty_of T) v)) = wire_format (ty_of T) v ->
  InlineEncoder.get_payload_length_ptr (ty_of T) m a
  = N.of_nat (length (wire_format (ty_of T) v)).
Proof.
  intros Hv Hs Hm. destruct T as [k n|]; cbn [ty_of] in *.
  - apply has_type_scalar in Hv as (x & -> & _).
    cbn [InlineEncoder.get_payload_length_ptr wire_format].
    unfold AssignmentEncoder.get_payload_length_ptr.
    now rewrite length_object_repr.
  - apply has_type_string in Hv as (s & ->).
    cbn [InlineEncoder.get_payload_length_ptr wire_format short_strings] in *.
    apply N.ltb_lt in Hs.
    apply load_bytes_app_eq in Hm as [Hm _].
    rewrite length_object_repr in Hm.
    unfold InlineString.get_payload_length_ptr, load_scalar,
      InlineString.sizeof_LengthType.
    rewrite Hm, object_value_repr_small by exact Hs.
    rewrite length_app, length_object_repr. lia.
Qed.

(** X12: [DefaultEncoder] stores and retrieves a pair of scalars or short
    byte strings under any PMNK type.  The span read back from the encoded
    payload is the payload length computed from the pair, [encode] changes
    nothing outside that span, and [decode], given the PMNK that [get_pmnk]
    extracts from the key, returns the key and the value: from the payload
    when the key is stored there, from the PMNK when the key type is the
    PMNK type. *)
Theorem default_encoder_round_trip (assert_enabled : nat -> bool)
    (g : nat -> byte) (K V : plain_ty) (PMNK_Type : ty)
    (k v kout vout : value) (dest : N) (m : memory) :
  has_type (ty_of K) k = true -> has_type (ty_of V) v = true ->
  short_strings k = true -> short_strings v = true ->
  has_type (ty_of K) kout = true -> has_type (ty_of V) vout = true ->
  let len := DefaultEncoder.get_payload_length K V PMNK_Type k v in
  let m' := DefaultEncoder.encode K V PMNK_Type k v dest m in
  DefaultEncoder.get_payload_length_ptr K V PMNK_Type m' dest = len
  /\ (forall a, a < dest \/ dest + len <= a -> m' a = m a)
  /\ DefaultEncoder.decode assert_enabled K V PMNK_Type m' dest
       (Some kout) (Some vout) (get_pmnk g (ty_of K) PMNK_Type k)
     = Returned {| key_out := Some k; value_out := Some v;
                   pair_allocated := [] |}.
Proof.
  intros Hk Hv Hsk Hsv Hko Hvo len m'. subst len m'.
  unfold DefaultEncoder.get_payload_length, DefaultEncoder.encode,
    DefaultEncoder.get_payload_length_ptr, DefaultEncoder.decode.
  rewrite !FieldEncoder_inline.
  destruct (is_same (ty_of K) PMNK_Type) eqn:S.
  - apply is_same_eq in S. subst PMNK_Type.
    pose proof (compound_encode_pmnk (InlineEncoder.policy (ty_of K))
                  (ty_of V) k v dest m Hv) as Hm'.
    pose proof (compound_actual_key_dummy (InlineEncoder.policy (ty_of K)))
      as A.
    cbn [Encoder.Type_ InlineEncoder.policy] in Hm', A. rewrite Hm'.
    pose proof (load_store_bytes (wire_format (ty_of V) v) m dest) as L.
    unfold CompoundEncoder.get_payload_length,
      CompoundEncoder.get_payload_length_ptr, CompoundEncoder.decode.
    rewrite A. unfold CompoundEncoder.K.
    cbn [DummyEncoder.policy Encoder.get_payload_length
         Encoder.get_payload_length_ptr Encoder.decode Encoder.Type_
         DummyEncoder.get_payload_length DummyEncoder.get_payload_length_ptr
         DummyEncoder.decode InlineEncoder.policy end_ptr allocated app].
    rewrite N.add_0_r, !N.add_0_l, is_same_refl. cbn [andb].
    rewrite (plain_length_from_bytes V v _ dest Hv Hsv L).
    rewrite (length_wire (ty_of V) v Hv).
    split; [reflexivity|]. split.
    + intros a Ha. now apply store_bytes_outside.
    + unfold get_pmnk. rewrite is_same_refl. unfold NoPrefixing.
      now rewrite (decode_wire (ty_of V) v vout Hv Hsv Hvo _ dest L).
  - rewrite (compound_encode_stored (ty_of K) (ty_of V) PMNK_Type k v dest m
               S Hk Hv).
    pose proof (load_store_bytes
                  (wire_format (ty_of K) k ++ wire_format (ty_of V) v) m dest)
      as L.
    apply load_bytes_app_eq in L as [Lk Lv].
    unfold CompoundEncoder.get_payload_length,
      CompoundEncoder.get_payload_length_ptr, CompoundEncoder.decode.
    rewrite (compound_actual_key_stored (InlineEncoder.policy (ty_of K))
               PMNK_Type S).
    unfold CompoundEncoder.K.
    cbn [Encoder.get_payload_length Encoder.get_payload_length_ptr
         Encoder.decode Encoder.Type_ InlineEncoder.policy].
    rewrite S, andb_false_r.
    rewrite (plain_length_from_bytes K k _ dest Hk Hsk Lk).
    rewrite (plain_length_from_bytes V v _ _ Hv Hsv Lv).
    rewrite (length_wire (ty_of K) k Hk), (length_wire (ty_of V) v Hv).
    split; [reflexivity|]. split.
    + intros a Ha. apply store_bytes_outside.
      rewrite length_app, Nat2N.inj_add. exact Ha.
    + rewrite (decode_wire (ty_of K) k kout Hk Hsk Hko _ dest Lk).
      cbn [end_ptr output allocated].
      now rewrite (decode_wire (ty_of V) v vout Hv Hsv Hvo _ _ Lv).
Qed.

Lemma default_encoder_round_trip_witness :
  let m' := DefaultEncoder.encode (PScalar Unsigned 8) PString
              (TScalar Unsigned 2) (VScalar 281474976710659)
              (VString ["v"]%byte) 0 zero_memory in
  DefaultEncoder.get_payload_length_ptr (PScalar Unsigned 8) PString
    (TScalar Unsigned 2) m' 0 = 11
  /\ DefaultEncoder.decode (fun _ => true) (PScalar Unsigned 8) PString
       (TScalar Unsigned 2) m' 0 (Some (VScalar 0)) (Some (VString []))
       (Some (VScalar 1))
     = Returned {| key_out := Some (VScalar 281474976710659);
                   value_out := Some (VString ["v"]%byte);
                   pair_allocated := [] |}.
Proof.
  destruct (default_encoder_round_trip (fun _ => true) (fun _ => "000"%byte)
              (PScalar Unsigned 8) PString (TScalar Unsigned 2)
              (VScalar 281474976710659) (VString ["v"]%byte)
              (VScalar 0) (VString []) 0 zero_memory)
    as (L & _ & D); try reflexivity.
  split; [exact L | exact D].
Defined.

(** ** Nested tuples *)

Lemma forall2b_app {A B} (f : A -> B -> bool) (a : list A) :
  forall (x : list B) (b : list A) (y : list B),
  forall2b f a x = true -> forall2b f b y = true ->
  forall2b f (a ++ b) (x ++ y) = true.
Proof.
  induction a as [|h a IH]; intros [|h' x] b y Ha Hb; try discriminate.
  - exact Hb.
  - cbn [forall2b app] in *. apply andb_prop in Ha as [H1 H2].
    now rewrite H1, IH.
Qed.

Lemma map_fields_app {A} (f : ty -> value -> A) (a : list ty) :
  forall (x : list value) (b : list ty) (y : list value),
  length a = length x ->
  map_fields f (a ++ b) (x ++ y) = map_fields f a x ++ map_fields f b y.
Proof.
  induction a as [|h a IH]; intros [|h' x] b y L; try discriminate.
  - reflexivity.
  - cbn [map_fields app]. f_equal. apply IH. now injection L.
Qed.

(** A value of a type is made of leaves of the type's leaf types, and its
    wire format is the concatenation of the leaves' wire formats. *)
Lemma leaves_typed_and_wire (T : ty) : forall v,
  has_type T v = true ->
  forall2b has_type (leaf_types T) (leaves v) = true
  /\ wire_format T v
     = concat (map_fields wire_format (leaf_types T) (leaves v)).
Proof.
  induction T as [k n| |Ts IH]; intros v Hv.
  - apply has_type_scalar in Hv as (x & -> & Hx).
    cbn [leaf_types leaves forall2b has_type map_fields concat wire_format].
    split; [|now rewrite app_nil_r].
    now rewrite (proj2 (N.ltb_lt _ _) Hx).
  - apply has_type_string in Hv as (s & ->).
    cbn [leaf_types leaves forall2b has_type map_fields concat wire_format].
    split; [reflexivity|now rewrite app_nil_r].
  - apply has_type_tuple in Hv as (fs & -> & Hfs).
    cbn [leaf_types leaves wire_format].
    revert fs Hfs.
    induction IH as [|T HT Ts _ IHTs]; intros [|f fs] Hfs; try discriminate.
    + split; reflexivity.
    + cbn [forall2b] in Hfs. apply andb_prop in Hfs as [Hf Hfs].
      destruct (HT f Hf) as [Lt Lw]. destruct (IHTs fs Hfs) as [Rt Rw].
      cbn [flat_map map_fields concat]. split.
      * now apply forall2b_app.
      * rewrite map_fields_app by now apply forall2b_length in Lt.
        now rewrite concat_app, Lw, Rw.
Qed.

(** X13: tuples carry no header, so nesting does not show in the bytes: a
    value of any type is encoded exactly as the flat tuple of its scalar and
    string leaves, with the same payload length, and an empty tuple field
    takes no bytes. *)
Theorem nested_tuple_encodes_flat (T : ty) (v : value) (dest : N)
    (m : memory) :
  has_type T v = true ->
  has_type (TTuple (leaf_types T)) (VTuple (leaves v)) = true
  /\ InlineEncoder.encode T v dest m
     = InlineEncoder.encode (TTuple (leaf_types T)) (VTuple (leaves v)) dest m
  /\ InlineEncoder.get_payload_length T v
     = InlineEncoder.get_payload_length (TTuple (leaf_types T))
         (VTuple (leaves v)).
Proof.
  intros Hv. destruct (leaves_typed_and_wire T v Hv) as [Ht Hw].
  assert (Hflat : has_type (TTuple (leaf_types T)) (VTuple (leaves v)) = true)
    by exact Ht.
  split; [exact Hflat|].
  rewrite (encode_wire T v Hv), (encode_wire _ _ Hflat).
  rewrite (length_wire T v Hv), (length_wire _ _ Hflat).
  cbn [wire_format]. now rewrite Hw.
Qed.

Lemma nested_tuple_encodes_flat_witness :
  InlineEncoder.encode
    (TTuple [TScalar Unsigned 1; TTuple [TString; TTuple []]])
    (VTuple [VScalar 1; VTuple [VString ["s"]%byte; VTuple []]])
    0 zero_memory
  = InlineEncoder.encode (TTuple [TScalar Unsigned 1; TString])
      (VTuple [VScalar 1; VString ["s"]%byte]) 0 zero_memory.
Proof.
  destruct (nested_tuple_encodes_flat
              (TTuple [TScalar Unsigned 1; TTuple [TString; TTuple []]])
              (VTuple [VScalar 1; VTuple [VString ["s"]%byte; VTuple []]])
              0 zero_memory) as (_ & E & _); [reflexivity|].
  exact E.
Defined.
